(** * SMASH spatial grid (src/grid.cc, src/include/smash/grid.h)

    A shallow embedding of the grid constructor [Grid<O>::Grid] and of the
    two specialisations of [iterate_cells], together with the properties
    of the natural-language specification that concern them.

    Conventions of the embedding:
    - a C++ [double] is an IEEE-754 binary64 value, represented by
      [spec_float] with the operations of [SpecFloat] at precision 53;
    - a C++ [int] ([GridBase::SizeType]) is a [Z] within the range of
      [int]; a conversion from [double] that leaves this range is
      undefined behaviour and is recorded as the outcome [Undefined], and
      so is a signed overflow in the product of the three cell counts
      (grid.cc:249-250) or in the flat index of a particle
      (grid.cc:256-261); the flat indices of the enumeration belong to
      cells of the grid or to their neighbours and are computed in [Z];
    - the program is the build in which [NDEBUG] is not defined, so the
      [assert]s and the bounds check of the bucketing loop are active;
    - [std::pow] and the truncated [std::cbrt] belong to the C library
      and are parameters of the embedding;
    - memory is not a resource of the embedding: [std::vector::resize]
      succeeds for every size up to [max_size()];
    - a constructor call produces an [outcome]: it returns, throws,
      fails an assertion, runs into undefined behaviour, or never leaves
      the [nextafter] loop. *)

From Stdlib Require Import ZArith List Lia Bool Permutation.
From Stdlib Require Import Floats.SpecFloat.
From Equations Require Import Equations.
Import ListNotations.

Open Scope Z_scope.

(* ===================================================================== *)
(** * Part I. Definitions *)
(* ===================================================================== *)

(** ** binary64 arithmetic *)

Module B64.

Definition prec : Z := 53.
Definition emax : Z := 1024.

Definition double : Type := spec_float.

Definition fadd : double -> double -> double := SFadd prec emax.
Definition fsub : double -> double -> double := SFsub prec emax.
Definition fmul : double -> double -> double := SFmul prec emax.
Definition fdiv : double -> double -> double := SFdiv prec emax.
Definition fneg : double -> double := SFopp.

(** The comparison operators of C++ on [double]; all are [false] as soon
    as one operand is a NaN. *)
Definition flt (x y : double) : bool := SFltb x y.
Definition fle (x y : double) : bool := SFleb x y.
Definition fgt (x y : double) : bool := SFltb y x.
Definition fge (x y : double) : bool := SFleb y x.
Definition feq (x y : double) : bool := SFeqb x y.

Definition is_nan (x : double) : bool :=
  match x with S754_nan => true | _ => false end.

(** Conversion of an [int] to [double].  Every [int] has at most 31
    significant bits, so the conversion is exact: the mantissa is only
    shifted to its canonical position. *)
Definition of_int (z : Z) : double :=
  match z with
  | Z0 => S754_zero false
  | Zpos p =>
      let '(m, e) := shl_align p 0 (fexp prec emax (Zpos (digits2_pos p))) in
      S754_finite false m e
  | Zneg p =>
      let '(m, e) := shl_align p 0 (fexp prec emax (Zpos (digits2_pos p))) in
      S754_finite true m e
  end.

Definition fzero : double := S754_zero false.
Definition fone : double := of_int 1.

Definition INT_MAX : Z := 2147483647.
Definition INT_MIN : Z := -2147483648.

(** [std::floor] followed by the conversion to [int]: the largest integer
    not above the value, when that integer is an [int]. *)
Definition floor_Z (x : double) : option Z :=
  match x with
  | S754_zero _ => Some 0
  | S754_finite s m e =>
      let sm := cond_Zopp s (Zpos m) in
      Some (if 0 <=? e then sm * 2 ^ e else sm / 2 ^ (- e))
  | S754_infinity _ | S754_nan => None
  end.

Definition floor_int (x : double) : option Z :=
  match floor_Z x with
  | Some z => if (INT_MIN <=? z) && (z <=? INT_MAX) then Some z else None
  | None => None
  end.

(** [std::nextafter(x, 0.)]: the neighbour of [x] in the direction of
    zero; zero itself is a fixed point. *)
Definition nextafter0 (x : double) : double :=
  match x with
  | S754_zero _ => S754_zero false
  | S754_nan => S754_nan
  | S754_infinity s => S754_finite s (2 ^ 53 - 1) (emax - prec)
  | S754_finite s m e =>
      if (m =? 1)%positive then S754_zero s
      else if ((m =? 2 ^ 52)%positive && (emin prec emax <? e))%bool
           then S754_finite s (2 ^ 53 - 1) (e - 1)
           else S754_finite s (Pos.pred m) e
  end.

(** The position of a value on the ladder that [nextafter0] descends. *)
Definition rank (x : double) : N :=
  match x with
  | S754_zero _ => 0
  | S754_nan => 0
  | S754_infinity _ => 2 ^ 53 * 4000
  | S754_finite _ m e => Z.to_N (e - emin prec emax) * 2 ^ 53 + Npos m
  end%N.

Definition rank_lt (x y : double) : Prop := (rank x < rank y)%N.

(** [nextafter0] has nowhere to go from a zero (or a NaN). *)
Definition at_rest (x : double) : bool :=
  match x with S754_zero _ | S754_nan => true | _ => false end.

End B64.

Import B64.

Lemma rank_lt_wf_raw : well_founded rank_lt.
Proof.
  unfold rank_lt.
  apply (well_founded_lt_compat _ (fun x => N.to_nat (rank x))).
  intros x y H. lia.
Qed.

#[local] Instance rank_lt_wf : WellFounded rank_lt :=
  Acc_intro_generator 12 rank_lt_wf_raw.

Lemma nextafter0_descends (f : double) :
  at_rest f = false -> rank_lt (nextafter0 f) f.
Proof.
  unfold rank_lt.
  destruct f as [s|s| |s m e]; try discriminate; intros _.
  - cbn -[N.mul N.pow Z.sub Z.pow Pos.pow].
    unfold emax, prec, emin. lia.
  - cbn -[N.mul N.pow Z.sub Z.pow Pos.pow Pos.eqb Z.ltb emin].
    destruct (Pos.eqb_spec m 1).
    { cbn -[N.mul N.pow Z.sub Z.pow Pos.pow emin]. lia. }
    destruct (Pos.eqb_spec m (2 ^ 52));
      cbn -[N.mul N.pow Z.sub Z.pow Pos.pow Z.ltb emin].
    + destruct (Z.ltb_spec (emin prec emax) e);
        cbn -[N.mul N.pow Z.sub Z.pow Pos.pow emin].
      * subst m.
        replace (e - emin prec emax)
          with (Z.succ (e - 1 - emin prec emax)) by lia.
        rewrite Z2N.inj_succ by lia. lia.
      * lia.
    + lia.
Qed.

Definition inspect {A} (a : A) : {b | a = b} := exist _ a eq_refl.

(** The loop of grid.cc:200-202,
    [while (index_factor * length >= n) index_factor = nextafter(index_factor, 0.)].
    [None] stands for the run that never leaves the loop: the condition
    still holds at a value that [nextafter] maps to itself. *)
Equations? nudge (len n f : double) : option double by wf f rank_lt :=
  nudge len n f with inspect (fge (fmul f len) n) := {
    | exist _ true _ with inspect (at_rest f) := {
        | exist _ true _ := None
        | exist _ false Hrest := nudge len n (nextafter0 f) };
    | exist _ false _ := Some f }.
Proof.
  apply nextafter0_descends. exact Hrest.
Qed.

(** ** Outcomes of a call *)

Inductive exception : Type :=
| overflow_error            (* grid.cc:158 *)
| box_too_small             (* grid.cc:188, a [runtime_error] *)
| length_error              (* grid.cc:249, thrown by [std::vector::resize] *)
| out_of_bounds.            (* grid.cc:279, a [runtime_error] *)

Inductive outcome (A : Type) : Type :=
| Returns (a : A)
| Throws (e : exception)
| AssertFails
| Undefined
| Loops.

Arguments Returns {A} a.
Arguments Throws {A} e.
Arguments AssertFails {A}.
Arguments Undefined {A}.
Arguments Loops {A}.

Definition bind {A B} (m : outcome A) (k : A -> outcome B) : outcome B :=
  match m with
  | Returns a => k a
  | Throws e => Throws e
  | AssertFails => AssertFails
  | Undefined => Undefined
  | Loops => Loops
  end.

Notation "x <- m ;; k" := (bind m (fun x => k))
  (at level 61, m at next level, right associativity).

Definition of_option {A} (o : option A) (otherwise : outcome A) : outcome A :=
  match o with Some a => Returns a | None => otherwise end.

(** The product and the sum of two [int]s; a result outside the range
    of [int] is a signed overflow. *)
Definition int_mul (a b : Z) : outcome Z :=
  if (INT_MIN <=? a * b) && (a * b <=? INT_MAX) then Returns (a * b)
  else Undefined.

Definition int_add (a b : Z) : outcome Z :=
  if (INT_MIN <=? a + b) && (a + b <=? INT_MAX) then Returns (a + b)
  else Undefined.

(** ** Options of the grid (grid.h) *)

Inductive GridOptions : Type := Normal | PeriodicBoundaries.
Inductive CellSizeStrategy : Type := Optimal | Largest.
Inductive CellNumberLimitation : Type := NoLimitation | ParticleNumber.

Definition is_periodic (O : GridOptions) : bool :=
  match O with PeriodicBoundaries => true | Normal => false end.
Definition is_largest (s : CellSizeStrategy) : bool :=
  match s with Largest => true | Optimal => false end.
Definition limits (l : CellNumberLimitation) : bool :=
  match l with ParticleNumber => true | NoLimitation => false end.

(** [std::array<T, 3>] *)
Definition array3 (A : Type) : Type := (A * A * A)%type.

Definition at3 {A} (a : array3 A) (i : nat) : A :=
  let '(a0, a1, a2) := a in
  match i with O => a0 | S O => a1 | _ => a2 end.

(** [Grid::make_index] (grid.cc:289-293), for the cell counts [n]. *)
Definition make_index (n : array3 Z) (x y z : Z) : Z :=
  (z * at3 n 1 + y) * at3 n 0 + x.

(** The same computation step by step in [int], for coordinates that
    are not known to lie inside the grid. *)
Definition make_index_int (n : array3 Z) (x y z : Z) : outcome Z :=
  a <- int_mul z (at3 n 1) ;;
  b <- int_add a y ;;
  c <- int_mul b (at3 n 0) ;;
  int_add c x.

(** ** Particles and the grid constructor *)

Section Construction.

(** [std::pow] and the static member [ParticleData::formation_power_]
    (particledata.cc:162). *)
Variable pow : double -> double -> double.
Variable formation_power_ : double.

(** [static_cast<int>(std::cbrt(particle_count))] (grid.cc:142-145): the
    cube root that the C library returns for the particle count, a
    [double], truncated to [int]. *)
Variable cbrt_int : Z -> Z.

(** The members of [ParticleData] that the grid reads.  [position_] is
    the four-position (t, x, y, z). *)
Record ParticleData : Type := {
  id : Z;
  position_ : double * double * double * double;
  formation_time_ : double;
  begin_formation_time_ : double;
  initial_xsec_scaling_factor_ : double
}.

Definition ParticleList : Type := list ParticleData.

Definition x0 (p : ParticleData) : double :=
  let '(t, _, _, _) := position_ p in t.

(** [p.position()[k]] for k = 1, 2, 3. *)
Definition position (p : ParticleData) (k : nat) : double :=
  let '(_, x, y, z) := position_ p in
  match k with S O => x | S (S O) => y | _ => z end.

(** particledata.cc:85-120 *)
Definition xsec_scaling_factor (p : ParticleData) (delta_time : double)
  : double :=
  let time_of_interest := fadd (x0 p) delta_time in
  if fle formation_power_ fzero then
    if flt time_of_interest (formation_time_ p)
    then initial_xsec_scaling_factor_ p
    else fone
  else
    if fle (formation_time_ p) time_of_interest then fone
    else if fge (begin_formation_time_ p) time_of_interest
         then initial_xsec_scaling_factor_ p
         else
           fadd (initial_xsec_scaling_factor_ p)
             (fmul (fsub fone (initial_xsec_scaling_factor_ p))
                (pow (fdiv (fsub time_of_interest (begin_formation_time_ p))
                        (fsub (formation_time_ p) (begin_formation_time_ p)))
                   formation_power_)).

(** Modelled from the spec: [ParticleData::translated] is declared in
    particledata.h, which is not part of the sources at hand; the spec
    asks for "a translated copy of itself without mutating the
    original", that is the same particle with the three space
    coordinates moved by [delta]. *)
Definition translated (delta : array3 double) (p : ParticleData)
  : ParticleData :=
  let '(t, x, y, z) := position_ p in
  let '(d0, d1, d2) := delta in
  {| id := id p;
     position_ := (t, fadd x d0, fadd y d1, fadd z d2);
     formation_time_ := formation_time_ p;
     begin_formation_time_ := begin_formation_time_ p;
     initial_xsec_scaling_factor_ := initial_xsec_scaling_factor_ p |}.

(** [std::min] and [std::max] on [double]. *)
Definition fmin (a b : double) : double := if flt b a then b else a.
Definition fmax (a b : double) : double := if flt a b then b else a.

(** grid.cc:86-110.  [particles.front()] of an empty container is
    undefined. *)
Definition find_min_and_length (particles : ParticleList)
  : outcome (array3 double * array3 double) :=
  match particles with
  | [] => Undefined
  | first :: _ =>
      let start := (position first 1, position first 2, position first 3) in
      let '(mn, mx) :=
        fold_left
          (fun (acc : array3 double * array3 double) p =>
             let '((m0, m1, m2), (M0, M1, M2)) := acc in
             ((fmin m0 (position p 1), fmin m1 (position p 2),
               fmin m2 (position p 3)),
              (fmax M0 (position p 1), fmax M1 (position p 2),
               fmax M2 (position p 3))))
          particles (start, start) in
      let '(m0, m1, m2) := mn in
      let '(M0, M1, M2) := mx in
      Returns (mn, (fsub M0 m0, fsub M1 m1, fsub M2 m2))
  end.

Record Grid : Type := {
  length_ : array3 double;
  cell_volume_ : double;
  number_of_cells_ : array3 Z;
  cells_ : list ParticleList
}.

(** grid.cc:142-145 *)
Definition max_cells_for (O : GridOptions) (particle_count : Z) : Z :=
  match O with
  | Normal => cbrt_int particle_count
  | PeriodicBoundaries => Z.max 2 (cbrt_int particle_count)
  end.

(** The overflow test of grid.cc:156-157 for one axis. *)
Definition overflows (max_interaction_length len : double) : bool :=
  fgt len (fdiv (of_int INT_MAX) (fdiv fone max_interaction_length)).

(** The count of grid.cc:165-166 for one axis, before any clamping. *)
Definition raw_cells (max_interaction_length len : double) : option Z :=
  floor_int (fmul len (fdiv fone max_interaction_length)).

(** grid.cc:154-167 *)
Definition count_cells (strategy : CellSizeStrategy)
    (max_interaction_length len : double) : outcome Z :=
  match strategy with
  | Largest => Returns 2
  | Optimal =>
      if overflows max_interaction_length len then Throws overflow_error
      else of_option (raw_cells max_interaction_length len) Undefined
  end.

(** grid.cc:168-192 *)
Definition clamp_cells (O : GridOptions) (limit : CellNumberLimitation)
    (max_cells n : Z) : outcome Z :=
  if (n =? 0) && negb (is_periodic O) then Returns 1
  else if (n <? 2) && is_periodic O then Throws box_too_small
  else if limits limit && (max_cells <? n) then Returns max_cells
  else Returns n.

(** grid.cc:196-204 *)
Definition rescale (max_interaction_length len : double) (n : Z)
  : outcome double :=
  if fge len max_interaction_length then
    match nudge len (of_int n) (fdiv (of_int n) len) with
    | Some f => if flt (fmul f len) (of_int n) then Returns f else AssertFails
    | None => Loops
    end
  else Returns (fdiv fone max_interaction_length).

(** One turn of the loop of grid.cc:153-205: the cell count and the
    index factor of one axis. *)
Definition axis (O : GridOptions) (strategy : CellSizeStrategy)
    (limit : CellNumberLimitation) (max_cells : Z)
    (max_interaction_length len : double) : outcome (Z * double) :=
  n0 <- count_cells strategy max_interaction_length len ;;
  n <- clamp_cells O limit max_cells n0 ;;
  f <- rescale max_interaction_length len n ;;
  Returns (n, f).

(** The whole loop, axes 0, 1, 2 in this order. *)
Definition geometry (O : GridOptions) (strategy : CellSizeStrategy)
    (limit : CellNumberLimitation) (max_cells : Z)
    (max_interaction_length : double) (len : array3 double)
  : outcome (array3 Z * array3 double) :=
  r0 <- axis O strategy limit max_cells max_interaction_length (at3 len 0) ;;
  r1 <- axis O strategy limit max_cells max_interaction_length (at3 len 1) ;;
  r2 <- axis O strategy limit max_cells max_interaction_length (at3 len 2) ;;
  Returns ((fst r0, fst r1, fst r2), (snd r0, snd r1, snd r2)).

(** The test of grid.cc:232 and its negation at grid.cc:263-264. *)
Definition can_interact (timestep_duration : double) (p : ParticleData)
  : bool :=
  fgt (xsec_scaling_factor p timestep_duration) fzero.

Definition skipped (include_unformed_particles : bool)
    (timestep_duration : double) (p : ParticleData) : bool :=
  negb include_unformed_particles
  && fle (xsec_scaling_factor p timestep_duration) fzero.

(** grid.cc:256-261; each [std::floor] is converted to [int] when it is
    passed to [make_index]. *)
Definition cell_index_for (n : array3 Z) (min_position index_factor : array3 double)
    (p : ParticleData) : outcome Z :=
  x <- of_option (floor_int (fmul (fsub (position p 1) (at3 min_position 0))
                               (at3 index_factor 0))) Undefined ;;
  y <- of_option (floor_int (fmul (fsub (position p 2) (at3 min_position 1))
                               (at3 index_factor 1))) Undefined ;;
  z <- of_option (floor_int (fmul (fsub (position p 3) (at3 min_position 2))
                               (at3 index_factor 2))) Undefined ;;
  make_index_int n x y z.

(** [cells_[idx].push_back(p)] for an index inside the vector. *)
Fixpoint push_back_at (cells : list ParticleList) (idx : nat)
    (p : ParticleData) : list ParticleList :=
  match cells, idx with
  | [], _ => []
  | c :: rest, O => (c ++ [p]) :: rest
  | c :: rest, S k => c :: push_back_at rest k p
  end.

(** grid.cc:262-283.  An index at or beyond [cells_.size()] is caught by
    the bounds check; a negative one is not and indexes the vector out
    of range. *)
Fixpoint place (n : array3 Z) (min_position index_factor : array3 double)
    (include_unformed_particles : bool) (timestep_duration : double)
    (particles : ParticleList) (cells : list ParticleList)
  : outcome (list ParticleList) :=
  match particles with
  | [] => Returns cells
  | p :: rest =>
      if skipped include_unformed_particles timestep_duration p then
        place n min_position index_factor include_unformed_particles
          timestep_duration rest cells
      else
        idx <- cell_index_for n min_position index_factor p ;;
        if Z.of_nat (length cells) <=? idx then Throws out_of_bounds
        else if idx <? 0 then Undefined
        else
          place n min_position index_factor include_unformed_particles
            timestep_duration rest (push_back_at cells (Z.to_nat idx) p)
  end.

Definition volume (len : array3 double) : double :=
  fmul (fmul (at3 len 0) (at3 len 1)) (at3 len 2).

(** The single-cell grid of grid.cc:127-131 and grid.cc:219-234. *)
Definition single_cell (len : array3 double) (content : ParticleList) : Grid :=
  {| length_ := len;
     cell_volume_ := volume len;
     number_of_cells_ := (1, 1, 1);
     cells_ := [content] |}.

Definition all_at_most_2 (n : array3 Z) : bool :=
  (at3 n 0 <=? 2) && (at3 n 1 <=? 2) && (at3 n 2 <=? 2).

(** The argument of [cells_.resize], grid.cc:249-250: the product of the
    three [int]s, taken from left to right. *)
Definition cell_total (n : array3 Z) : outcome Z :=
  p <- int_mul (at3 n 0) (at3 n 1) ;;
  int_mul p (at3 n 2).

(** The constructor [Grid<O>::Grid(min_and_length, particles, ...)],
    grid.cc:115-287.  A negative product becomes, as a [size_type], a
    size beyond [max_size()], which [resize] answers with a
    [std::length_error]. *)
Definition Grid_ctor (O : GridOptions)
    (min_and_length : array3 double * array3 double)
    (particles : ParticleList)
    (max_interaction_length timestep_duration : double)
    (limit : CellNumberLimitation)
    (include_unformed_particles : bool)
    (strategy : CellSizeStrategy) : outcome Grid :=
  let min_position := fst min_and_length in
  let len := snd min_and_length in
  let particle_count := Z.of_nat (length particles) in
  if negb (is_periodic O) && is_largest strategy then
    Returns (single_cell len particles)
  else
    let max_cells := max_cells_for O particle_count in
    g <- geometry O strategy limit max_cells max_interaction_length len ;;
    let '(n, index_factor) := g in
    if negb (is_periodic O) && all_at_most_2 n then
      Returns (single_cell len
                 (if include_unformed_particles then particles
                  else filter (can_interact timestep_duration) particles))
    else
      size <- cell_total n ;;
      if size <? 0 then Throws length_error
      else
        cells <- place n min_position index_factor include_unformed_particles
                   timestep_duration particles
                   (repeat [] (Z.to_nat size)) ;;
        Returns {| length_ := len;
                   cell_volume_ :=
                     fmul (fmul (fdiv (at3 len 0) (of_int (at3 n 0)))
                             (fdiv (at3 len 1) (of_int (at3 n 1))))
                       (fdiv (at3 len 2) (of_int (at3 n 2)));
                   number_of_cells_ := n;
                   cells_ := cells |}.

(** The constructor [Grid<O>::Grid(particles, ...)] of grid.h:113-123. *)
Definition Grid_of_particles (O : GridOptions) (particles : ParticleList)
    (min_cell_length timestep_duration : double)
    (limit : CellNumberLimitation)
    (include_unformed_particles : bool)
    (strategy : CellSizeStrategy) : outcome Grid :=
  box <- find_min_and_length particles ;;
  Grid_ctor O box particles min_cell_length timestep_duration limit
    include_unformed_particles strategy.

End Construction.

(** ** Enumeration of cells and neighbours ([iterate_cells]) *)

(** [for (x = 0; x < n; ++x)] *)
Definition range (n : Z) : list Z := map Z.of_nat (seq 0 (Z.to_nat n)).

Definition set3 {A} (a : array3 A) (i : nat) (v : A) : array3 A :=
  let '(a0, a1, a2) := a in
  match i with O => (v, a1, a2) | S O => (a0, v, a2) | _ => (a0, a1, v) end.

(** grid.cc:295-299 *)
Definition ZERO : list Z := [0].
Definition ZERO_ONE : list Z := [0; 1].
Definition MINUS_ONE_ZERO : list Z := [-1; 0].
Definition MINUS_ONE_ZERO_ONE : list Z := [-1; 0; 1].

(** grid.cc:321 *)
Definition dz_list_normal (nz z : Z) : list Z :=
  if z =? nz - 1 then ZERO else ZERO_ONE.

(** grid.cc:322-331, the same expression for y and for x *)
Definition d_list_normal (n x : Z) : list Z :=
  if n =? 1 then ZERO
  else if x =? 0 then ZERO_ONE
  else if x =? n - 1 then MINUS_ONE_ZERO
  else MINUS_ONE_ZERO_ONE.

(** grid.cc:355-363 *)
Inductive NeedsToWrap : Type := PlusLength | No | MinusLength.

Record NeighborLookup : Type := {
  index : Z;
  wrap : NeedsToWrap
}.

(** grid.cc:387-393.  [dz_list[0].wrap] is never assigned and
    [dz_list[1].wrap] is assigned only in the last turn of the z loop,
    so both are [No] wherever the text below says so. *)
Definition dz_list_periodic (nz z : Z) : list NeighborLookup :=
  [ {| index := z; wrap := No |};
    if z + 1 =? nz then {| index := 0; wrap := MinusLength |}
    else {| index := z + 1; wrap := No |} ].

(** grid.cc:395-406 and 408-419.  The entry at position 1 keeps the
    flag [No]: it is only ever overwritten by a copy of entry 2 taken
    right after that entry's flag was reset. *)
Definition d_list_periodic (n y : Z) : list NeighborLookup :=
  if y =? 0 then
    [ {| index := y; wrap := No |};
      {| index := y + 1; wrap := No |};
      {| index := n - 1; wrap := PlusLength |} ]
  else if y + 1 =? n then
    [ {| index := y; wrap := No |};
      {| index := y - 1; wrap := No |};
      {| index := 0; wrap := MinusLength |} ]
  else
    [ {| index := y; wrap := No |};
      {| index := y - 1; wrap := No |};
      {| index := y + 1; wrap := No |} ].

Section Traversal.

(** The scalar type of coordinates with the operations the periodic
    walk applies to it, and the particle type with its translation.
    In the program these are [double] and [ParticleData]. *)
Variable D : Type.
Variable zero : D.
Variable neg : D -> D.
Variable sub : D -> D -> D.
Variable eqb : D -> D -> bool.
Variable P : Type.
Variable translated : array3 D -> P -> P.

(** Modelled from the spec: [ThreeVector] (threevector.h) is not part
    of the sources at hand.  Its difference and its inequality test are
    taken componentwise, "the accumulated wrap-vector differs from the
    wrap vector used for the previous invocation" and "translated by the
    delta". *)
Definition vsub (a b : array3 D) : array3 D :=
  (sub (at3 a 0) (at3 b 0), sub (at3 a 1) (at3 b 1), sub (at3 a 2) (at3 b 2)).

Definition vneq (a b : array3 D) : bool :=
  negb (eqb (at3 a 0) (at3 b 0) && eqb (at3 a 1) (at3 b 1)
        && eqb (at3 a 2) (at3 b 2)).

(** One invocation of a callback.  The indices [i], [j] of the cells
    whose contents are handed over are recorded next to the arguments
    themselves. *)
Inductive call : Type :=
| search_cell_callback (i : Z) (search : list P)
| neighbor_cell_callback (i j : Z) (search neighbor : list P).

(** [cells_[i]] *)
Definition cell_at (cells : list (list P)) (i : Z) : list P :=
  nth (Z.to_nat i) cells [].

(** grid.cc:318-341, the body of the innermost loop over [x].  The
    running counter [search_cell_index] is [make_index(search_index)]
    (grid.cc:315). *)
Definition normal_cell (n : array3 Z) (cells : list (list P)) (x y z : Z)
  : list call :=
  let search_cell_index := make_index n x y z in
  let search := cell_at cells search_cell_index in
  search_cell_callback search_cell_index search ::
  flat_map (fun dz =>
    flat_map (fun dy =>
      flat_map (fun dx =>
        let di := make_index n dx dy dz in
        if 0 <? di then
          [neighbor_cell_callback search_cell_index (search_cell_index + di)
             search (cell_at cells (search_cell_index + di))]
        else [])
        (d_list_normal (at3 n 0) x))
      (d_list_normal (at3 n 1) y))
    (dz_list_normal (at3 n 2) z).

(** [Grid<GridOptions::Normal>::iterate_cells], grid.cc:303-345 *)
Definition iterate_cells_normal (n : array3 Z) (cells : list (list P))
  : list call :=
  flat_map (fun z =>
    flat_map (fun y =>
      flat_map (fun x => normal_cell n cells x y z) (range (at3 n 0)))
      (range (at3 n 1)))
    (range (at3 n 2)).

(** The local variables of grid.cc:424-429 that the three inner loops
    of the periodic walk update. *)
Record walk : Type := {
  virtual_search_index : array3 Z;
  wrap_vector : array3 D;
  current_wrap_vector : array3 D;
  search_buffer : list P
}.

(** grid.cc:439-445 and 448-454 for axis [i] in {0, 1} *)
Definition enter (i : nat) (n : array3 Z) (len : array3 D)
    (d : NeighborLookup) (w : walk) : walk :=
  match wrap d with
  | MinusLength =>
      {| virtual_search_index := set3 (virtual_search_index w) i (-1);
         wrap_vector := set3 (wrap_vector w) i (neg (at3 len i));
         current_wrap_vector := current_wrap_vector w;
         search_buffer := search_buffer w |}
  | PlusLength =>
      {| virtual_search_index := set3 (virtual_search_index w) i (at3 n i);
         wrap_vector := set3 (wrap_vector w) i (at3 len i);
         current_wrap_vector := current_wrap_vector w;
         search_buffer := search_buffer w |}
  | No => w
  end.

(** grid.cc:432-436 *)
Definition enter_z (len : array3 D) (dz : NeighborLookup) (w : walk) : walk :=
  match wrap dz with
  | MinusLength =>
      {| virtual_search_index := set3 (virtual_search_index w) 2 (-1);
         wrap_vector := set3 (wrap_vector w) 2 (neg (at3 len 2));
         current_wrap_vector := current_wrap_vector w;
         search_buffer := search_buffer w |}
  | _ => w
  end.

(** grid.cc:479-480 and 482-483 *)
Definition leave (i : nat) (search_index : array3 Z) (w : walk) : walk :=
  {| virtual_search_index :=
       set3 (virtual_search_index w) i (at3 search_index i);
     wrap_vector := set3 (wrap_vector w) i zero;
     current_wrap_vector := current_wrap_vector w;
     search_buffer := search_buffer w |}.

(** grid.cc:469-476 *)
Definition retranslate (w : walk) : walk :=
  if vneq (wrap_vector w) (current_wrap_vector w) then
    {| virtual_search_index := virtual_search_index w;
       wrap_vector := wrap_vector w;
       current_wrap_vector := wrap_vector w;
       search_buffer :=
         map (translated (vsub (wrap_vector w) (current_wrap_vector w)))
           (search_buffer w) |}
  else w.

(** grid.cc:461-477 *)
Definition visit (n : array3 Z) (cells : list (list P))
    (search_cell_index : Z) (dx dy dz : NeighborLookup) (w : walk)
  : list call * walk :=
  let neighbor_cell_index := make_index n (index dx) (index dy) (index dz) in
  let '(vx, vy, vz) := virtual_search_index w in
  if neighbor_cell_index <=? make_index n vx vy vz then ([], w)
  else
    let w' := retranslate w in
    ([neighbor_cell_callback search_cell_index neighbor_cell_index
        (search_buffer w') (cell_at cells neighbor_cell_index)], w').

(** grid.cc:446-478 *)
Fixpoint x_loop (n : array3 Z) (len : array3 D) (cells : list (list P))
    (search_cell_index : Z) (dx_list : list NeighborLookup)
    (dy dz : NeighborLookup) (w : walk) : list call * walk :=
  match dx_list with
  | [] => ([], w)
  | dx :: rest =>
      let '(c1, w1) :=
        visit n cells search_cell_index dx dy dz (enter 0 n len dx w) in
      let '(c2, w2) := x_loop n len cells search_cell_index rest dy dz w1 in
      (c1 ++ c2, w2)
  end.

(** grid.cc:437-484 *)
Fixpoint y_loop (n : array3 Z) (len : array3 D) (cells : list (list P))
    (search_index : array3 Z) (search_cell_index : Z)
    (dx_list dy_list : list NeighborLookup) (dz : NeighborLookup) (w : walk)
  : list call * walk :=
  match dy_list with
  | [] => ([], w)
  | dy :: rest =>
      let '(c1, w1) :=
        x_loop n len cells search_cell_index dx_list dy dz
          (enter 1 n len dy w) in
      let '(c2, w2) :=
        y_loop n len cells search_index search_cell_index dx_list rest dz
          (leave 0 search_index w1) in
      (c1 ++ c2, w2)
  end.

(** grid.cc:431-484 *)
Fixpoint z_loop (n : array3 Z) (len : array3 D) (cells : list (list P))
    (search_index : array3 Z) (search_cell_index : Z)
    (dx_list dy_list dz_list : list NeighborLookup) (w : walk)
  : list call * walk :=
  match dz_list with
  | [] => ([], w)
  | dz :: rest =>
      let '(c1, w1) :=
        y_loop n len cells search_index search_cell_index dx_list dy_list dz
          (enter_z len dz w) in
      let '(c2, w2) :=
        z_loop n len cells search_index search_cell_index dx_list dy_list
          rest (leave 1 search_index w1) in
      (c1 ++ c2, w2)
  end.

(** grid.cc:408-484, the body of the loop over [x] *)
Definition periodic_cell (n : array3 Z) (len : array3 D)
    (cells : list (list P)) (x y z : Z) : list call :=
  let search_cell_index := make_index n x y z in
  let search := cell_at cells search_cell_index in
  search_cell_callback search_cell_index search ::
  fst (z_loop n len cells (x, y, z) search_cell_index
         (d_list_periodic (at3 n 0) x) (d_list_periodic (at3 n 1) y)
         (dz_list_periodic (at3 n 2) z)
         {| virtual_search_index := (x, y, z);
            wrap_vector := (zero, zero, zero);
            current_wrap_vector := (zero, zero, zero);
            search_buffer := search |}).

(** [Grid<GridOptions::PeriodicBoundaries>::iterate_cells],
    grid.cc:367-488, with the assertions of grid.cc:382-384 *)
Definition iterate_cells_periodic (n : array3 Z) (len : array3 D)
    (cells : list (list P)) : outcome (list call) :=
  if (2 <=? at3 n 2) && (2 <=? at3 n 1) && (2 <=? at3 n 0) then
    Returns
      (flat_map (fun z =>
         flat_map (fun y =>
           flat_map (fun x => periodic_cell n len cells x y z)
             (range (at3 n 0)))
           (range (at3 n 1)))
         (range (at3 n 2)))
  else AssertFails.

(** The pairs of cell indices handed to the neighbour callback, in the
    order of the calls. *)
Definition neighbor_pairs (trace : list call) : list (Z * Z) :=
  flat_map (fun c =>
    match c with
    | neighbor_cell_callback i j _ _ => [(i, j)]
    | search_cell_callback _ _ => []
    end) trace.

(** The cell indices handed to the search callback, in the order of the
    calls. *)
Definition search_cells (trace : list call) : list Z :=
  flat_map (fun c =>
    match c with
    | search_cell_callback i _ => [i]
    | neighbor_cell_callback _ _ _ _ => []
    end) trace.


End Traversal.

Arguments search_cell_callback {P} i search.
Arguments neighbor_cell_callback {P} i j search neighbor.
Arguments neighbor_pairs {P} trace.
Arguments search_cells {P} trace.
Arguments cell_at {P} cells i.

(** ** The grid of the program and its enumeration *)

(** [Grid<O>::iterate_cells] on a constructed grid: coordinates are
    [double]s and particles are [ParticleData]. *)
Definition iterate_cells (O : GridOptions) (g : Grid)
  : outcome (list (call ParticleData)) :=
  match O with
  | Normal =>
      Returns (iterate_cells_normal ParticleData (number_of_cells_ g) (cells_ g))
  | PeriodicBoundaries =>
      iterate_cells_periodic double fzero fneg fsub feq ParticleData translated
        (number_of_cells_ g) (length_ g) (cells_ g)
  end.

(** The particles a callback invocation receives. *)
Definition arguments {P} (c : call P) : list P :=
  match c with
  | search_cell_callback _ s => s
  | neighbor_cell_callback _ _ s nb => s ++ nb
  end.

(** ** Vocabulary of the properties *)

(** The axes, in the order of the loop of grid.cc:153. *)
Definition axes : list nat := [0%nat; 1%nat; 2%nat].

(** What the sizing loop does on axis [i] when it gets there. *)
Definition axis_outcome (cbrt_int : Z -> Z) (O : GridOptions)
    (strategy : CellSizeStrategy)
    (limit : CellNumberLimitation) (particle_count : Z)
    (max_interaction_length : double) (len : array3 double) (i : nat)
  : outcome (Z * double) :=
  axis O strategy limit (max_cells_for cbrt_int O particle_count)
    max_interaction_length (at3 len i).

(** The loop gets past axis [i]. *)
Definition axis_completes (cbrt_int : Z -> Z) (O : GridOptions)
    (strategy : CellSizeStrategy)
    (limit : CellNumberLimitation) (particle_count : Z)
    (max_interaction_length : double) (len : array3 double) (i : nat) : Prop :=
  exists v,
    axis_outcome cbrt_int O strategy limit particle_count
      max_interaction_length len i
    = Returns v.

(** A cell coordinate inside a grid of [n] cells per axis. *)
Definition in_grid (n : array3 Z) (c : array3 Z) : Prop :=
  0 <= at3 c 0 < at3 n 0 /\ 0 <= at3 c 1 < at3 n 1 /\ 0 <= at3 c 2 < at3 n 2.

Definition flat (n : array3 Z) (c : array3 Z) : Z :=
  make_index n (at3 c 0) (at3 c 1) (at3 c 2).










(** The particles that belong on the grid. *)
Definition eligible (pow : double -> double -> double)
    (formation_power_ : double) (include_unformed_particles : bool)
    (timestep_duration : double) (particles : ParticleList) : ParticleList :=
  if include_unformed_particles then particles
  else filter (can_interact pow formation_power_ timestep_duration) particles.

(** The constructor returns a grid whose cells hold the eligible
    particles, each one once. *)
Definition bucketed_exactly_once (pow : double -> double -> double)
    (formation_power_ : double) (cbrt_int : Z -> Z) (O : GridOptions)
    (box : array3 double * array3 double) (particles : ParticleList)
    (max_interaction_length timestep_duration : double)
    (limit : CellNumberLimitation) (include_unformed_particles : bool)
    (strategy : CellSizeStrategy) : Prop :=
  exists g,
    Grid_ctor pow formation_power_ cbrt_int O box particles
      max_interaction_length timestep_duration limit
      include_unformed_particles strategy = Returns g
    /\ Permutation (concat (cells_ g))
         (eligible pow formation_power_ include_unformed_particles
            timestep_duration particles).

(** *** Counting invocations *)




(** Both enumerations have the same shape.  Along each axis the search
    cell has a short list of entries, each made of the coordinate of a
    neighbour and of the coordinate from which that neighbour is looked
    at: the cell's own coordinate, or the virtual coordinate -1 or [n]
    when the neighbour is reached around the edge.  A triple of entries
    yields a call when the flat index of the neighbour exceeds the flat
    index of the place it is looked at from. *)
Definition guarded_pair (n : array3 Z) (search_cell_index : Z)
    (cz cy cx : Z * Z) : list (Z * Z) :=
  if make_index n (snd cx) (snd cy) (snd cz)
     <? make_index n (fst cx) (fst cy) (fst cz)
  then [(search_cell_index, make_index n (fst cx) (fst cy) (fst cz))]
  else [].

Definition entry_pairs (n : array3 Z) (search_cell_index : Z)
    (ez ey ex : list (Z * Z)) : list (Z * Z) :=
  flat_map (fun cz =>
    flat_map (fun cy =>
      flat_map (guarded_pair n search_cell_index cz cy) ex) ey) ez.



(** The entries of the periodic enumeration: the index of a lookup and
    the virtual coordinate that its wrap flag selects (grid.cc:432-454;
    the z axis has no branch for [PlusLength]). *)
Definition virtual_of (own m : Z) (d : NeighborLookup) : Z :=
  match wrap d with No => own | MinusLength => -1 | PlusLength => m end.

Definition virtual_of_z (own : Z) (d : NeighborLookup) : Z :=
  match wrap d with MinusLength => -1 | _ => own end.

Definition lookups (own m : Z) (l : list NeighborLookup) : list (Z * Z) :=
  map (fun d => (index d, virtual_of own m d)) l.

Definition lookups_z (own : Z) (l : list NeighborLookup) : list (Z * Z) :=
  map (fun d => (index d, virtual_of_z own d)) l.

Definition periodic_cell_pairs (n : array3 Z) (x y z : Z) : list (Z * Z) :=
  entry_pairs n (make_index n x y z)
    (lookups_z z (dz_list_periodic (at3 n 2) z))
    (lookups y (at3 n 1) (d_list_periodic (at3 n 1) y))
    (lookups x (at3 n 0) (d_list_periodic (at3 n 0) x)).

(** "Only the last entry of a list can wrap" (grid.cc:438, 447). *)
Definition last_wraps (l : list NeighborLookup) : Prop :=
  Forall (fun d => wrap d = No) (removelast l).












(** ** Vocabulary of further properties *)

(** The calls of the search callback, in their order: the index of the
    cell and the list handed over. *)
Definition search_calls {P} (trace : list (call P)) : list (Z * list P) :=
  flat_map (fun c =>
    match c with
    | search_cell_callback i s => [(i, s)]
    | neighbor_cell_callback _ _ _ _ => []
    end) trace.

(** The calls of the neighbour callback, in their order. *)
Definition neighbor_calls {P} (trace : list (call P))
  : list (Z * Z * list P * list P) :=
  flat_map (fun c =>
    match c with
    | search_cell_callback _ _ => []
    | neighbor_cell_callback i j s nb => [(i, j, s, nb)]
    end) trace.

(** The number of cells [cells_.size()] that [number_of_cells_]
    announces. *)
Definition cell_count (n : array3 Z) : Z := at3 n 0 * at3 n 1 * at3 n 2.

(** A [double] that is not below zero: a zero of either sign, a
    positive number or plus infinity (a NaN passes, too: it is below
    nothing). *)
Definition not_negative (x : double) : bool :=
  match x with
  | S754_finite true _ _ | S754_infinity true => false
  | _ => true
  end.

(** A box that the sizing loop is written for: a positive interaction
    length and no axis of negative length. *)
Definition well_formed_box (mil : double) (len : array3 double) : Prop :=
  flt fzero mil = true
  /\ fle fzero (at3 len 0) = true /\ fle fzero (at3 len 1) = true
  /\ fle fzero (at3 len 2) = true.

(** A list of particles after a sequence of translations, each applied
    to every particle of the list. *)
Definition retranslated {D P} (translated : array3 D -> P -> P)
    (ds : list (array3 D)) (l : list P) : list P :=
  fold_left (fun acc d => map (translated d) acc) ds l.

(** A call hands over stored cells: the search callback the cell of its
    index, the neighbour callback the neighbour cell as it is stored and
    the search cell after translations. *)
Definition hands_over_stored_cells {D P} (translated : array3 D -> P -> P)
    (cells : list (list P)) (c : call P) : Prop :=
  match c with
  | search_cell_callback i s => s = cell_at cells i
  | neighbor_cell_callback i j s nb =>
      nb = cell_at cells j
      /\ exists ds, s = retranslated translated ds (cell_at cells i)
  end.

(** The bucketing loop does not skip the particle (grid.cc:263-266). *)
Definition kept (pow : double -> double -> double) (formation_power_ : double)
    (include_unformed_particles : bool) (timestep_duration : double)
    (p : ParticleData) : bool :=
  negb (skipped pow formation_power_ include_unformed_particles
          timestep_duration p).

(** [cell_index_for(p)] is the flat index [i]. *)
Definition lands_in (n : array3 Z) (min_position index_factor : array3 double)
    (i : Z) (p : ParticleData) : bool :=
  match cell_index_for n min_position index_factor p with
  | Returns j => j =? i
  | _ => false
  end.

(** ** Sample inputs *)





Module Sample.

(** No sample particle is in the course of its formation, so [std::pow]
    is never consulted; the formation power is its initial value 0.0
    (particledata.cc:162). *)
Definition pow (base exponent : double) : double := S754_nan.
Definition formation_power : double := fzero.

(** No sample list has more than seven particles: the cube root of 0 is
    0, and the cube roots of 1 to 7 lie between 1 and 1.92, so that they
    truncate to 1 however the library rounds them. *)
Definition cbrt_int (particle_count : Z) : Z :=
  if particle_count <=? 0 then 0 else 1.

Definition tenth : double := fdiv fone (of_int 10).
Definition hundredth : double := fdiv fone (of_int 100).

(** A particle that is fully formed from time 0 on. *)
Definition formed (i : Z) (x y z : double) : ParticleData :=
  {| id := i;
     position_ := (fzero, x, y, z);
     formation_time_ := fzero;
     begin_formation_time_ := fzero;
     initial_xsec_scaling_factor_ := fone |}.

(** A particle that forms at time 5 and has the scaling factor 0.0
    until then. *)
Definition unformed (i : Z) (x y z : double) : ParticleData :=
  {| id := i;
     position_ := (fzero, x, y, z);
     formation_time_ := of_int 5;
     begin_formation_time_ := of_int 5;
     initial_xsec_scaling_factor_ := fzero |}.

Definition origin : array3 double := (fzero, fzero, fzero).
Definition cube (l : double) : array3 double := (l, l, l).

(** The two largest doubles below 2:
    1.9999999999999998 = 2 - 2^-52 and 1.9999999999999996 = 2 - 2^-51. *)
Definition below_two : double := S754_finite false (2 ^ 53 - 1) (-52).
Definition below_below_two : double := S754_finite false (2 ^ 53 - 2) (-52).

(** Two particles at opposite corners of a box of
    1.9999999999999996 x 10 x 10. *)
Definition corner_pair : ParticleList :=
  [ formed 0 fzero fzero fzero;
    formed 1 below_below_two (of_int 10) (of_int 10) ].

(** A formed and an unformed particle at opposite corners of the unit
    cube. *)
Definition mixed_pair : ParticleList :=
  [ formed 0 fzero fzero fzero;
    unformed 1 fone fone fone ].

(** Two particles next to the opposite x faces of a periodic box of
    length 10: at x = 10 - 0.01 and at x = 0.01. *)
Definition face_pair : ParticleList :=
  [ formed 0 (fsub (of_int 10) hundredth) fzero fzero;
    formed 1 hundredth fzero fzero ].


Definition Grid_ctor := Grid_ctor pow formation_power cbrt_int.
Definition Grid_of_particles := Grid_of_particles pow formation_power cbrt_int.

End Sample.

(** Case analysis on the integer comparisons inside a comparison of two
    [double]s. *)
Ltac order_cases :=
  repeat match goal with
  | |- context [Z.compare ?a ?b] => destruct (Z.compare_spec a b)
  | H : context [Z.compare ?a ?b] |- _ => destruct (Z.compare_spec a b)
  | |- context [Pos.compare ?a ?b] => destruct (Pos.compare_spec a b)
  | H : context [Pos.compare ?a ?b] |- _ => destruct (Pos.compare_spec a b)
  end.

(* ===================================================================== *)
(** * Part II. Properties *)
(* ===================================================================== *)

(** ** The [nextafter] loop *)

Lemma nudge_stuck len n f :
  nudge len n f = None ->
  exists g, at_rest g = true /\ fge (fmul g len) n = true.
Proof.
  funelim (nudge len n f).
  - discriminate.
  - intros _. exists f. split; assumption.
  - assumption.
Qed.

(** On exit the loop condition is false. *)
Lemma nudge_exit len n f g :
  nudge len n f = Some g -> fge (fmul g len) n = false.
Proof.
  funelim (nudge len n f).
  - intros [= <-]. assumption.
  - discriminate.
  - eauto.
Qed.

Lemma of_int_positive k :
  0 < k -> exists m e, of_int k = S754_finite false m e.
Proof.
  destruct k as [|p|p]; try lia. intros _.
  unfold of_int.
  destruct (shl_align p 0 (fexp prec emax (Z.pos (digits2_pos p)))) as [m e].
  exists m, e. reflexivity.
Qed.

Lemma rest_below_positive g len m e :
  at_rest g = true -> fge (fmul g len) (S754_finite false m e) = false.
Proof.
  destruct g as [s|s| |s m' e']; try discriminate; intros _;
    destruct len as [sl|sl| |sl ml el]; reflexivity.
Qed.

(** With a positive cell count the loop always ends. *)
Lemma nudge_terminates len k f :
  0 < k -> nudge len (of_int k) f <> None.
Proof.
  intros Hk Hnone.
  destruct (nudge_stuck _ _ _ Hnone) as (g & Hrest & Hge).
  destruct (of_int_positive k Hk) as (m & e & Hm).
  rewrite Hm in Hge. rewrite (rest_below_positive g len m e Hrest) in Hge.
  discriminate.
Qed.

(** ** One axis of the sizing loop *)

Lemma count_cells_throws strategy mil len e :
  count_cells strategy mil len = Throws e ->
  strategy = Optimal /\ e = overflow_error /\ overflows mil len = true.
Proof.
  unfold count_cells. destruct strategy; [|discriminate].
  destruct (overflows mil len) eqn:Ho.
  - intros [= <-]. auto.
  - destruct (raw_cells mil len); discriminate.
Qed.

Lemma clamp_cells_throws O limit mc n e :
  clamp_cells O limit mc n = Throws e ->
  e = box_too_small /\ O = PeriodicBoundaries /\ n < 2.
Proof.
  unfold clamp_cells.
  destruct O; simpl; rewrite ?andb_false_r, ?andb_true_r.
  - destruct (n =? 0); [discriminate|].
    destruct (limits limit && (mc <? n)); discriminate.
  - destruct (Z.ltb_spec n 2).
    + intros [= <-]. auto.
    + destruct (limits limit && (mc <? n)); discriminate.
Qed.

Lemma rescale_never_throws mil len n e : rescale mil len n <> Throws e.
Proof.
  unfold rescale. destruct (fge len mil); [|discriminate].
  destruct (nudge len (of_int n) (fdiv (of_int n) len)) as [f|]; [|discriminate].
  destruct (flt (fmul f len) (of_int n)); discriminate.
Qed.

Lemma rescale_positive_ends mil len n : 0 < n -> rescale mil len n <> Loops.
Proof.
  intros Hn. unfold rescale. destruct (fge len mil); [|discriminate].
  destruct (nudge len (of_int n) (fdiv (of_int n) len)) as [f|] eqn:E.
  - destruct (flt (fmul f len) (of_int n)); discriminate.
  - exfalso. exact (nudge_terminates _ _ _ Hn E).
Qed.

Lemma axis_throws O strategy limit mc mil len e :
  axis O strategy limit mc mil len = Throws e ->
  (count_cells strategy mil len = Throws e)
  \/ (exists n0, count_cells strategy mil len = Returns n0
                 /\ clamp_cells O limit mc n0 = Throws e).
Proof.
  unfold axis.
  destruct (count_cells strategy mil len) as [n0| | | |] eqn:Ec; simpl;
    try discriminate.
  - destruct (clamp_cells O limit mc n0) as [n| | | |] eqn:En; simpl;
      try discriminate.
    + destruct (rescale mil len n) as [f| | | |] eqn:Er; simpl; try discriminate.
      intros _. exfalso. exact (rescale_never_throws _ _ _ _ Er).
    + intros [= <-]. right. exists n0. auto.
  - intros [= <-]. left. reflexivity.
Qed.

(** With the Optimal strategy an axis throws the overflow error exactly
    when the test of grid.cc:156 succeeds on it. *)
Lemma axis_overflow_iff O limit mc mil len :
  axis O Optimal limit mc mil len = Throws overflow_error
  <-> overflows mil len = true.
Proof.
  split.
  - intros H. destruct (axis_throws _ _ _ _ _ _ _ H) as [Hc|(n0 & _ & Hc)].
    + apply count_cells_throws in Hc. tauto.
    + apply clamp_cells_throws in Hc. destruct Hc as [Hc _]. discriminate.
  - intros Ho. unfold axis, count_cells. rewrite Ho. reflexivity.
Qed.

(** In periodic mode with the Optimal strategy an axis throws the
    box-too-small error exactly when it passes the overflow test and its
    count is below 2. *)
Lemma axis_box_too_small_iff limit mc mil len :
  axis PeriodicBoundaries Optimal limit mc mil len = Throws box_too_small
  <-> overflows mil len = false
      /\ exists k, raw_cells mil len = Some k /\ k < 2.
Proof.
  split.
  - intros H. destruct (axis_throws _ _ _ _ _ _ _ H) as [Hc|(n0 & Hc & Hk)].
    + apply count_cells_throws in Hc. destruct Hc as (_ & Hc & _). discriminate.
    + apply clamp_cells_throws in Hk. destruct Hk as (_ & _ & Hk).
      unfold count_cells in Hc.
      destruct (overflows mil len); [discriminate|].
      split; [reflexivity|].
      destruct (raw_cells mil len) as [k|]; [|discriminate].
      injection Hc as <-. exists k. auto.
  - intros (Ho & k & Hr & Hk). unfold axis, count_cells.
    rewrite Ho, Hr. simpl. unfold clamp_cells. simpl.
    rewrite andb_false_r, andb_true_r.
    destruct (Z.ltb_spec k 2); [reflexivity|lia].
Qed.

Lemma axis_normal_never_box_too_small strategy limit mc mil len :
  axis Normal strategy limit mc mil len <> Throws box_too_small.
Proof.
  intros H. destruct (axis_throws _ _ _ _ _ _ _ H) as [Hc|(n0 & _ & Hc)].
  - apply count_cells_throws in Hc. destruct Hc as (_ & Hc & _). discriminate.
  - apply clamp_cells_throws in Hc. destruct Hc as (_ & Hc & _). discriminate.
Qed.

(** In normal mode a count of zero becomes one. *)
Lemma axis_normal_zero_clamped limit mc mil len n f :
  overflows mil len = false ->
  raw_cells mil len = Some 0 ->
  axis Normal Optimal limit mc mil len = Returns (n, f) ->
  n = 1.
Proof.
  intros Ho Hr. unfold axis, count_cells. rewrite Ho, Hr. simpl.
  destruct (rescale mil len 1) as [f'| | | |]; simpl; try discriminate.
  intros [= <- _]. reflexivity.
Qed.

(** With the Largest strategy in periodic mode an axis has two cells
    and neither throws nor stays in the loop. *)
Lemma axis_largest_periodic cbrt_int limit particle_count mil len :
  let r := axis PeriodicBoundaries Largest limit
             (max_cells_for cbrt_int PeriodicBoundaries particle_count) mil len in
  (forall e, r <> Throws e) /\ r <> Loops
  /\ (forall n f, r = Returns (n, f) -> n = 2).
Proof.
  assert (Hc : clamp_cells PeriodicBoundaries limit
                 (max_cells_for cbrt_int PeriodicBoundaries particle_count) 2
               = Returns 2).
  { unfold clamp_cells, max_cells_for. simpl.
    destruct (Z.ltb_spec (Z.max 2 (cbrt_int particle_count)) 2); [lia|].
    rewrite andb_false_r. reflexivity. }
  cbv zeta. unfold axis. cbn [count_cells bind]. rewrite Hc. cbn [bind].
  pose proof (rescale_never_throws mil len 2) as Ht.
  pose proof (rescale_positive_ends mil len 2 ltac:(lia)) as Hl.
  destruct (rescale mil len 2) as [f| | | |]; simpl;
    repeat split; try discriminate; try congruence.
Qed.

(** ** The sizing loop and the constructor *)

Lemma geometry_throws_iff O strategy limit mc mil len e :
  geometry O strategy limit mc mil len = Throws e
  <-> exists i, (i < 3)%nat
        /\ axis O strategy limit mc mil (at3 len i) = Throws e
        /\ forall j, (j < i)%nat ->
             exists v, axis O strategy limit mc mil (at3 len j) = Returns v.
Proof.
  unfold geometry. split.
  - destruct (axis O strategy limit mc mil (at3 len 0)) as [r0| | | |] eqn:E0;
      simpl; try discriminate.
    2:{ intros [= <-]. exists 0%nat. repeat split; [lia|assumption|].
        intros j Hj. lia. }
    destruct (axis O strategy limit mc mil (at3 len 1)) as [r1| | | |] eqn:E1;
      simpl; try discriminate.
    2:{ intros [= <-]. exists 1%nat. repeat split; [lia|assumption|].
        intros j Hj. assert (j = 0%nat) as -> by lia. eauto. }
    destruct (axis O strategy limit mc mil (at3 len 2)) as [r2| | | |] eqn:E2;
      simpl; try discriminate.
    intros [= <-]. exists 2%nat. repeat split; [lia|assumption|].
    intros j Hj.
    assert (j = 0%nat \/ j = 1%nat) as [-> | ->] by lia; eauto.
  - intros (i & Hi & He & Hbefore).
    destruct i as [|[|[|i]]]; try lia.
    + rewrite He. reflexivity.
    + destruct (Hbefore 0%nat ltac:(lia)) as [v0 H0]. rewrite H0. simpl.
      rewrite He. reflexivity.
    + destruct (Hbefore 0%nat ltac:(lia)) as [v0 H0].
      destruct (Hbefore 1%nat ltac:(lia)) as [v1 H1].
      rewrite H0. simpl. rewrite H1. simpl. rewrite He. reflexivity.
Qed.

Lemma geometry_returns O strategy limit mc mil len n f :
  geometry O strategy limit mc mil len = Returns (n, f) ->
  forall i, (i < 3)%nat ->
    axis O strategy limit mc mil (at3 len i) = Returns (at3 n i, at3 f i).
Proof.
  unfold geometry.
  destruct (axis O strategy limit mc mil (at3 len 0)) as [[n0 f0]| | | |] eqn:E0;
    simpl; try discriminate.
  destruct (axis O strategy limit mc mil (at3 len 1)) as [[n1 f1]| | | |] eqn:E1;
    simpl; try discriminate.
  destruct (axis O strategy limit mc mil (at3 len 2)) as [[n2 f2]| | | |] eqn:E2;
    simpl; try discriminate.
  intros [= <- <-] i Hi.
  destruct i as [|[|[|i]]]; try lia; assumption.
Qed.

Lemma geometry_loops O strategy limit mc mil len :
  geometry O strategy limit mc mil len = Loops ->
  exists i, (i < 3)%nat /\ axis O strategy limit mc mil (at3 len i) = Loops.
Proof.
  unfold geometry.
  destruct (axis O strategy limit mc mil (at3 len 0)) as [r0| | | |] eqn:E0;
    simpl; try discriminate.
  2:{ intros _. exists 0%nat. split; [lia|assumption]. }
  destruct (axis O strategy limit mc mil (at3 len 1)) as [r1| | | |] eqn:E1;
    simpl; try discriminate.
  2:{ intros _. exists 1%nat. split; [lia|assumption]. }
  destruct (axis O strategy limit mc mil (at3 len 2)) as [r2| | | |] eqn:E2;
    simpl; try discriminate.
  intros _. exists 2%nat. split; [lia|assumption].
Qed.

(** ** The product of the cell counts *)

Lemma int_mul_returns a b c :
  int_mul a b = Returns c -> c = a * b /\ INT_MIN <= c <= INT_MAX.
Proof.
  unfold int_mul.
  destruct (Z.leb_spec INT_MIN (a * b)); [|discriminate].
  destruct (Z.leb_spec (a * b) INT_MAX); [|discriminate].
  cbn [andb]. intros [= <-]. lia.
Qed.

Lemma int_mul_outcome a b :
  int_mul a b = Undefined \/ exists c, int_mul a b = Returns c.
Proof.
  unfold int_mul.
  destruct ((INT_MIN <=? a * b) && (a * b <=? INT_MAX)); eauto.
Qed.

Lemma int_add_outcome a b :
  int_add a b = Undefined \/ exists c, int_add a b = Returns c.
Proof.
  unfold int_add.
  destruct ((INT_MIN <=? a + b) && (a + b <=? INT_MAX)); eauto.
Qed.

Lemma int_add_returns a b c :
  int_add a b = Returns c -> c = a + b.
Proof.
  unfold int_add.
  destruct ((INT_MIN <=? a + b) && (a + b <=? INT_MAX)); [|discriminate].
  intros [= <-]. reflexivity.
Qed.

(** The flat index of a particle is computed or a conversion or an
    [int] operation on the way leaves the range of [int]; when it is
    computed it is [make_index] of the three coordinates. *)
Lemma make_index_int_outcome n x y z :
  make_index_int n x y z = Undefined
  \/ make_index_int n x y z = Returns (make_index n x y z).
Proof.
  unfold make_index_int, make_index.
  destruct (int_mul z (at3 n 1)) as [a| | | |] eqn:Ha;
    try (destruct (int_mul_outcome z (at3 n 1)) as [E|[? E]];
         rewrite E in Ha; discriminate);
    [|left; reflexivity].
  apply int_mul_returns in Ha. destruct Ha as [-> _]. cbn [bind].
  destruct (int_add (z * at3 n 1) y) as [b| | | |] eqn:Hb;
    try (destruct (int_add_outcome (z * at3 n 1) y) as [E|[? E]];
         rewrite E in Hb; discriminate);
    [|left; reflexivity].
  apply int_add_returns in Hb. subst b. cbn [bind].
  destruct (int_mul (z * at3 n 1 + y) (at3 n 0)) as [c| | | |] eqn:Hc;
    try (destruct (int_mul_outcome (z * at3 n 1 + y) (at3 n 0)) as [E|[? E]];
         rewrite E in Hc; discriminate);
    [|left; reflexivity].
  apply int_mul_returns in Hc. destruct Hc as [-> _]. cbn [bind].
  destruct (int_add_outcome ((z * at3 n 1 + y) * at3 n 0) x) as [E|[d E]].
  - left. exact E.
  - right. rewrite E. apply int_add_returns in E. subst d. reflexivity.
Qed.

Lemma cell_total_outcome n :
  cell_total n = Undefined \/ exists c, cell_total n = Returns c.
Proof.
  unfold cell_total.
  destruct (int_mul_outcome (at3 n 0) (at3 n 1)) as [->|[p ->]]; cbn [bind].
  - left. reflexivity.
  - apply int_mul_outcome.
Qed.

(** When the product is computed it is the product of the three counts,
    an [int]. *)
Lemma cell_total_returns n size :
  cell_total n = Returns size ->
  size = cell_count n /\ INT_MIN <= size <= INT_MAX.
Proof.
  unfold cell_total, cell_count.
  destruct (int_mul (at3 n 0) (at3 n 1)) as [p| | | |] eqn:Hp;
    cbn [bind]; try discriminate.
  apply int_mul_returns in Hp. destruct Hp as [-> _].
  intros H. apply int_mul_returns in H. exact H.
Qed.

(** Case analysis on the product in a goal about the constructor: it
    overflows or it is computed. *)
Ltac cell_total_cases n :=
  let size := fresh "size" in
  let Hsize := fresh "Hsize" in
  destruct (cell_total_outcome n) as [Hsize|[size Hsize]];
  rewrite Hsize; cbn [bind]; [discriminate|];
  apply cell_total_returns in Hsize; destruct Hsize as [-> Hsize].

(** Counts of at least one whose product is an [int] are multiplied
    without overflow. *)
Lemma cell_total_in_range n :
  1 <= at3 n 0 -> 1 <= at3 n 1 -> 1 <= at3 n 2 ->
  cell_count n <= INT_MAX ->
  cell_total n = Returns (cell_count n).
Proof.
  unfold cell_total, cell_count, int_mul, INT_MIN, INT_MAX.
  intros H0 H1 H2 H.
  assert (1 <= at3 n 0 * at3 n 1) by nia.
  assert (at3 n 0 * at3 n 1 <= at3 n 0 * at3 n 1 * at3 n 2) by nia.
  destruct (Z.leb_spec (-2147483648) (at3 n 0 * at3 n 1)); [|lia].
  destruct (Z.leb_spec (at3 n 0 * at3 n 1) 2147483647); [|lia].
  cbn [andb bind].
  destruct (Z.leb_spec (-2147483648) (at3 n 0 * at3 n 1 * at3 n 2)); [|lia].
  destruct (Z.leb_spec (at3 n 0 * at3 n 1 * at3 n 2) 2147483647); [|lia].
  reflexivity.
Qed.

Lemma cell_index_for_outcome n minp f p :
  cell_index_for n minp f p = Undefined
  \/ exists idx, cell_index_for n minp f p = Returns idx.
Proof.
  unfold cell_index_for.
  repeat match goal with
  | |- context [of_option ?o _] => destruct o; cbn [of_option bind]
  end; try (left; reflexivity).
  match goal with
  | |- context [make_index_int ?n ?x ?y ?z] =>
      destruct (make_index_int_outcome n x y z) as [->| ->]
  end; eauto.
Qed.

Section ConstructorFacts.

Variable pow : double -> double -> double.
Variable formation_power_ : double.
Variable cbrt_int : Z -> Z.

Local Abbreviation placing := (place pow formation_power_).
Local Abbreviation ctor := (Grid_ctor pow formation_power_ cbrt_int).

(** The bucketing loop can only throw the out-of-bounds error, and it
    neither loops nor fails an assertion. *)
Lemma place_outcome n minp f incl dt ps cells :
  (forall e, placing n minp f incl dt ps cells = Throws e -> e = out_of_bounds)
  /\ placing n minp f incl dt ps cells <> Loops
  /\ placing n minp f incl dt ps cells <> AssertFails.
Proof.
  revert cells. induction ps as [|p ps IH]; intros cells; simpl.
  - repeat split; discriminate.
  - destruct (skipped pow formation_power_ incl dt p); [apply IH|].
    destruct (cell_index_for_outcome n minp f p) as [->|[idx ->]];
      cbn [bind]; [repeat split; discriminate|].
    match goal with
    | |- context [if ?c then Throws out_of_bounds else _] => destruct c
    end.
    + repeat split; try discriminate. intros e [= <-]. reflexivity.
    + match goal with
      | |- context [if ?c then Undefined else _] => destruct c
      end; [repeat split; discriminate|apply IH].
Qed.

(** The constructor throws what the sizing loop throws, the length
    error of [resize] for a negative product of the cell counts, or the
    out-of-bounds error of the bucketing loop. *)
Lemma ctor_throws O box ps mil dt limit incl strategy e :
  ctor O box ps mil dt limit incl strategy = Throws e ->
  negb (is_periodic O) && is_largest strategy = false
  /\ (geometry O strategy limit
        (max_cells_for cbrt_int O (Z.of_nat (length ps))) mil (snd box) = Throws e
      \/ e = out_of_bounds
      \/ (e = length_error
          /\ exists n f,
               geometry O strategy limit
                 (max_cells_for cbrt_int O (Z.of_nat (length ps))) mil (snd box)
               = Returns (n, f)
               /\ cell_count n < 0)).
Proof.
  unfold Grid_ctor.
  destruct (negb (is_periodic O) && is_largest strategy); [discriminate|].
  intros H. split; [reflexivity|].
  destruct (geometry O strategy limit
              (max_cells_for cbrt_int O (Z.of_nat (length ps))) mil (snd box))
    as [[n f]| | | |]; simpl in H; try discriminate.
  - right.
    destruct (negb (is_periodic O) && all_at_most_2 n); [discriminate|].
    destruct (cell_total_outcome n) as [Hsize|[size Hsize]];
      rewrite Hsize in H; simpl in H; [discriminate|].
    apply cell_total_returns in Hsize. destruct Hsize as [-> _].
    revert H. destruct (Z.ltb_spec (cell_count n) 0); intros H'.
    + right. injection H' as <-. split; [reflexivity|]. exists n, f. auto.
    + left.
      destruct (place_outcome n (fst box) f incl dt ps
                  (repeat [] (Z.to_nat (cell_count n))))
        as (Ht & _ & _).
      destruct (placing n (fst box) f incl dt ps _) as [c| | | |];
        simpl in H'; try discriminate.
      apply Ht. f_equal. congruence.
  - left. injection H as ->. reflexivity.
Qed.

Lemma ctor_geometry_throws O box ps mil dt limit incl strategy e :
  negb (is_periodic O) && is_largest strategy = false ->
  geometry O strategy limit
    (max_cells_for cbrt_int O (Z.of_nat (length ps))) mil (snd box) = Throws e ->
  ctor O box ps mil dt limit incl strategy = Throws e.
Proof.
  intros Hf Hg. unfold Grid_ctor. rewrite Hf, Hg. reflexivity.
Qed.

Lemma ctor_returns O box ps mil dt limit incl strategy g :
  negb (is_periodic O) && is_largest strategy = false ->
  ctor O box ps mil dt limit incl strategy = Returns g ->
  exists n f,
    geometry O strategy limit
      (max_cells_for cbrt_int O (Z.of_nat (length ps))) mil (snd box) = Returns (n, f).
Proof.
  intros Hf. unfold Grid_ctor. rewrite Hf.
  destruct (geometry O strategy limit
              (max_cells_for cbrt_int O (Z.of_nat (length ps))) mil (snd box))
    as [[n f]| | | |]; simpl; try discriminate.
  intros _. eauto.
Qed.

Lemma ctor_loops O box ps mil dt limit incl strategy :
  ctor O box ps mil dt limit incl strategy = Loops ->
  geometry O strategy limit
    (max_cells_for cbrt_int O (Z.of_nat (length ps))) mil (snd box) = Loops.
Proof.
  unfold Grid_ctor.
  destruct (negb (is_periodic O) && is_largest strategy); [discriminate|].
  destruct (geometry O strategy limit
              (max_cells_for cbrt_int O (Z.of_nat (length ps))) mil (snd box))
    as [[n f]| | | |]; simpl; try discriminate; auto.
  destruct (negb (is_periodic O) && all_at_most_2 n); [discriminate|].
  destruct (cell_total_outcome n) as [->|[size ->]]; simpl;
    [discriminate|].
  destruct (size <? 0); [discriminate|].
  destruct (place_outcome n (fst box) f incl dt ps
              (repeat [] (Z.to_nat size)))
    as (_ & Hl & _).
  destruct (placing n (fst box) f incl dt ps _) as [c| | | |];
    simpl; try discriminate. congruence.
Qed.

End ConstructorFacts.

(** ** Errors of the constructor *)

Section ConstructorErrors.

Variable pow : double -> double -> double.
Variable formation_power_ : double.
Variable cbrt_int : Z -> Z.

Local Abbreviation ctor := (Grid_ctor pow formation_power_ cbrt_int).

(** With the Optimal strategy the constructor throws the overflow
    error exactly when, on some axis that the sizing loop reaches (every
    earlier axis having completed without an error), the length exceeds
    INT_MAX / index_factor with index_factor = 1 / interaction length.
    And it never hands back a grid when that test succeeds on an axis:
    no cell count is then ever computed from the too large quotient. *)
Lemma overflow_error_iff O box ps mil dt limit incl :
  let count := Z.of_nat (length ps) in
  let len := snd box in
  (ctor O box ps mil dt limit incl Optimal = Throws overflow_error
   <-> exists i, (i < 3)%nat
         /\ overflows mil (at3 len i) = true
         /\ forall j, (j < i)%nat ->
              axis_completes cbrt_int O Optimal limit count mil len j)
  /\ ((exists i, (i < 3)%nat /\ overflows mil (at3 len i) = true) ->
      forall g, ctor O box ps mil dt limit incl Optimal <> Returns g).
Proof.
  cbv zeta. unfold axis_completes, axis_outcome.
  assert (Hfast : negb (is_periodic O) && is_largest Optimal = false)
    by (destruct O; reflexivity).
  split; [split|].
  - intros H. apply ctor_throws in H. destruct H as (_ & [H|[H|[H _]]]); try discriminate.
    apply geometry_throws_iff in H. destruct H as (i & Hi & He & Hb).
    exists i. split; [assumption|]. split; [|assumption].
    apply axis_overflow_iff in He. assumption.
  - intros (i & Hi & Ho & Hb).
    apply ctor_geometry_throws; [assumption|].
    apply geometry_throws_iff. exists i. split; [assumption|].
    split; [|assumption]. apply axis_overflow_iff. assumption.
  - intros (i & Hi & Ho) g Hg.
    destruct (ctor_returns _ _ _ _ _ _ _ _ _ _ _ _ Hfast Hg) as (n & f & Hgeo).
    pose proof (geometry_returns _ _ _ _ _ _ _ _ Hgeo i Hi) as Hax.
    apply (axis_overflow_iff O limit (max_cells_for cbrt_int O (Z.of_nat (length ps))))
      in Ho.
    rewrite Ho in Hax. discriminate.
Qed.

(** C8.  In periodic mode with the Optimal strategy the constructor
    throws the box-too-small error exactly when, on some axis that the
    sizing loop reaches, the overflow test fails and
    floor(length * index_factor) is below 2.  In normal mode that error
    is never thrown, and a count of zero on an axis becomes one. *)
Theorem C8_box_too_small_iff box ps mil dt limit incl :
  let count := Z.of_nat (length ps) in
  let len := snd box in
  (ctor PeriodicBoundaries box ps mil dt limit incl Optimal
   = Throws box_too_small
   <-> exists i, (i < 3)%nat
         /\ overflows mil (at3 len i) = false
         /\ (exists k, raw_cells mil (at3 len i) = Some k /\ k < 2)
         /\ forall j, (j < i)%nat ->
              axis_completes cbrt_int PeriodicBoundaries Optimal limit count mil len j)
  /\ (forall strategy,
        ctor Normal box ps mil dt limit incl strategy
        <> Throws box_too_small)
  /\ (forall i n f, (i < 3)%nat ->
        overflows mil (at3 len i) = false ->
        raw_cells mil (at3 len i) = Some 0 ->
        axis_outcome cbrt_int Normal Optimal limit count mil len i = Returns (n, f) ->
        n = 1).
Proof.
  cbv zeta. unfold axis_completes, axis_outcome.
  split; [split|split].
  - intros H. apply ctor_throws in H. destruct H as (_ & [H|[H|[H _]]]); try discriminate.
    apply geometry_throws_iff in H. destruct H as (i & Hi & He & Hb).
    exists i. split; [assumption|].
    apply axis_box_too_small_iff in He. destruct He as (Ho & Hk).
    repeat split; assumption.
  - intros (i & Hi & Ho & Hk & Hb).
    apply ctor_geometry_throws; [reflexivity|].
    apply geometry_throws_iff. exists i. split; [assumption|].
    split; [|assumption]. apply axis_box_too_small_iff. split; assumption.
  - intros strategy H. apply ctor_throws in H.
    destruct H as (_ & [H|[H|[H _]]]); try discriminate.
    apply geometry_throws_iff in H. destruct H as (i & _ & He & _).
    exact (axis_normal_never_box_too_small _ _ _ _ _ He).
  - intros i n f _ Ho Hr Hax.
    exact (axis_normal_zero_clamped _ _ _ _ _ _ Ho Hr Hax).
Qed.

(** C10 (amended).  With the Largest strategy the constructor never
    throws the overflow error or the box-too-small error, whatever the
    box and the interaction length, and it never stays in the nextafter
    loop.  In normal mode it returns the single-cell grid.  In periodic
    mode every axis has 2 cells, and the only error it can throw is the
    out-of-bounds error of the bucketing loop. *)
Theorem C10_largest_errors O box ps mil dt limit incl :
  let r := ctor O box ps mil dt limit incl Largest in
  r <> Throws overflow_error
  /\ r <> Throws box_too_small
  /\ r <> Loops
  /\ (forall e, r = Throws e -> e = out_of_bounds /\ O = PeriodicBoundaries)
  /\ (O = Normal -> r = Returns (single_cell (snd box) ps))
  /\ (forall g, O = PeriodicBoundaries -> r = Returns g ->
        number_of_cells_ g = (2, 2, 2)).
Proof.
  cbv zeta.
  destruct O.
  - (* normal mode: the fast path of grid.cc:126-133 *)
    unfold Grid_ctor. simpl.
    repeat split; try discriminate.
  - assert (Hax : forall i,
               let r := axis PeriodicBoundaries Largest limit
                          (max_cells_for cbrt_int PeriodicBoundaries
                             (Z.of_nat (length ps))) mil (at3 (snd box) i) in
               (forall e, r <> Throws e) /\ r <> Loops
               /\ (forall n f, r = Returns (n, f) -> n = 2))
      by (intros i; apply axis_largest_periodic).
    assert (Hgeo : forall e,
               geometry PeriodicBoundaries Largest limit
                 (max_cells_for cbrt_int PeriodicBoundaries (Z.of_nat (length ps)))
                 mil (snd box) <> Throws e).
    { intros e H. apply geometry_throws_iff in H.
      destruct H as (i & _ & He & _). destruct (Hax i) as (Ht & _).
      exact (Ht e He). }
    assert (Hthrow : forall e,
               ctor PeriodicBoundaries box ps mil dt limit incl Largest
               = Throws e -> e = out_of_bounds).
    { intros e H. apply ctor_throws in H.
      destruct H as (_ & [H|[H|(_ & n & f & Hn & Hneg)]]).
      - exfalso. exact (Hgeo e H).
      - assumption.
      - exfalso.
        pose proof (geometry_returns _ _ _ _ _ _ _ _ Hn) as Hr.
        destruct (Hax 0%nat) as (_ & _ & H0).
        destruct (Hax 1%nat) as (_ & _ & H1).
        destruct (Hax 2%nat) as (_ & _ & H2).
        specialize (H0 _ _ (Hr 0%nat ltac:(lia))).
        specialize (H1 _ _ (Hr 1%nat ltac:(lia))).
        specialize (H2 _ _ (Hr 2%nat ltac:(lia))).
        unfold cell_count in Hneg. lia. }
    repeat split.
    + intros H. apply Hthrow in H. discriminate.
    + intros H. apply Hthrow in H. discriminate.
    + intros H. apply ctor_loops in H. apply geometry_loops in H.
      destruct H as (i & _ & Hl). destruct (Hax i) as (_ & Hn & _).
      exact (Hn Hl).
    + apply Hthrow. assumption.
    + discriminate.
    + intros g _ Hg.
      destruct (ctor_returns pow formation_power_ cbrt_int PeriodicBoundaries box ps
                  mil dt limit incl Largest g eq_refl Hg) as (n & f & Hn).
      pose proof (geometry_returns _ _ _ _ _ _ _ _ Hn) as Hr.
      assert (Hn2 : forall i, (i < 3)%nat -> at3 n i = 2).
      { intros i Hi. destruct (Hax i) as (_ & _ & H2).
        exact (H2 _ _ (Hr i Hi)). }
      pose proof (Hn2 0%nat ltac:(lia)) as H0.
      pose proof (Hn2 1%nat ltac:(lia)) as H1.
      pose proof (Hn2 2%nat ltac:(lia)) as H2.
      destruct n as [[n0 n1] n2]. simpl in H0, H1, H2. subst n0 n1 n2.
      unfold Grid_ctor in Hg.
      cbn [negb is_periodic is_largest andb] in Hg. rewrite Hn in Hg.
      cbn [bind negb is_periodic andb] in Hg.
      change (cell_total (2, 2, 2)) with (Returns (A:=Z) 8) in Hg.
      cbn [bind] in Hg.
      match type of Hg with
      | context [place ?a ?b ?c ?d ?e ?f ?g ?h ?i] =>
          destruct (place a b c d e f g h i) as [c'| | | |]
      end; simpl in Hg; try discriminate.
      injection Hg as <-. reflexivity.
Qed.

End ConstructorErrors.

(** ** The product of the three counts *)

Section ProductOverflow.

Variable pow : double -> double -> double.
Variable formation_power_ : double.
Variable cbrt_int : Z -> Z.

(** C9.  The overflow test of grid.cc:156-157 looks at one axis at a
    time.  For a cubic box of side 1626 and the interaction length 1,
    with the Optimal strategy and no limit on the number of cells, it
    fails on every axis and every axis gets 1626 cells, each an [int].
    Their product 1626^3 = 4298942376 is above INT_MAX = 2147483647:
    the [int] multiplication of grid.cc:249-250 overflows, which is
    undefined behaviour (the wrapped value would be 3975080), and the
    constructor does not throw the overflow error. *)
Theorem C9_product_of_counts_overflows_unnoticed
    O (minp : array3 double) (ps : ParticleList) (dt : double) (incl : bool) :
  let side := of_int 1626 in
  let r := Grid_ctor pow formation_power_ cbrt_int O (minp, Sample.cube side)
             ps fone dt NoLimitation incl Optimal in
  overflows fone side = false
  /\ raw_cells fone side = Some 1626
  /\ (exists f,
        geometry O Optimal NoLimitation
          (max_cells_for cbrt_int O (Z.of_nat (length ps))) fone
          (Sample.cube side) = Returns ((1626, 1626, 1626), f))
  /\ INT_MAX < 1626 * 1626 * 1626
  /\ (1626 * 1626 * 1626) mod 2 ^ 32 = 3975080
  /\ cell_total (1626, 1626, 1626) = Undefined
  /\ r = Undefined
  /\ r <> Throws overflow_error.
Proof.
  cbv zeta.
  assert (Hgeo : exists f,
            geometry O Optimal NoLimitation
              (max_cells_for cbrt_int O (Z.of_nat (length ps))) fone
              (Sample.cube (of_int 1626)) = Returns ((1626, 1626, 1626), f)).
  { destruct O; eexists; vm_compute; reflexivity. }
  assert (Hctor : Grid_ctor pow formation_power_ cbrt_int O
                    (minp, Sample.cube (of_int 1626)) ps fone dt NoLimitation
                    incl Optimal = Undefined).
  { destruct Hgeo as [f Hgeo]. unfold Grid_ctor. cbn [snd].
    replace (negb (is_periodic O) && is_largest Optimal) with false
      by (destruct O; reflexivity).
    rewrite Hgeo. cbn [bind].
    replace (negb (is_periodic O) && all_at_most_2 (1626, 1626, 1626))
      with false by (destruct O; reflexivity).
    reflexivity. }
  split; [vm_compute; reflexivity|].
  split; [vm_compute; reflexivity|].
  split; [exact Hgeo|].
  split; [vm_compute; reflexivity|].
  split; [reflexivity|].
  split; [reflexivity|].
  split; [exact Hctor|].
  rewrite Hctor. discriminate.
Qed.

End ProductOverflow.

(** ** The programme run on sample inputs *)

(** C1.  A particle on the upper corner of the bounding box of
    [Sample.corner_pair] is sent to a cell that does not exist.  The box
    is 1.9999999999999996 x 10 x 10 and the interaction length is
    1.9999999999999998, so the x axis is shorter than one interaction
    length and its index factor stays 1 / 1.9999999999999998 =
    0.5000000000000001, without the nextafter safety margin.  The x
    axis gets floor(1.9999999999999996 * 0.5000000000000001) =
    floor(1.0) = 1 cell, and the particle at x = 1.9999999999999996 gets
    the x index 1, not 0; its flat index is 25 in a grid of 1 * 5 * 5 =
    25 cells, and the constructor throws the out-of-bounds error. *)
Theorem C1_upper_corner_particle_out_of_bounds :
  let len := (Sample.below_below_two, of_int 10, of_int 10) in
  let corner := Sample.formed 1 Sample.below_below_two (of_int 10) (of_int 10) in
  find_min_and_length Sample.corner_pair = Returns (Sample.origin, len)
  /\ fge Sample.below_below_two Sample.below_two = false
  /\ fmul Sample.below_below_two (fdiv fone Sample.below_two) = fone
  /\ (exists f,
        geometry Normal Optimal NoLimitation
          (max_cells_for Sample.cbrt_int Normal 2)
          Sample.below_two len = Returns ((1, 5, 5), f)
        /\ at3 f 0 = fdiv fone Sample.below_two
        /\ floor_int (fmul (fsub (position corner 1) (at3 Sample.origin 0))
                        (at3 f 0)) = Some 1
        /\ cell_index_for (1, 5, 5) Sample.origin f corner = Returns 25)
  /\ 1 * 5 * 5 = 25
  /\ Sample.Grid_of_particles Normal Sample.corner_pair Sample.below_two
       Sample.tenth NoLimitation false Optimal = Throws out_of_bounds.
Proof.
  cbv zeta.
  split; [vm_compute; reflexivity|].
  split; [vm_compute; reflexivity|].
  split; [vm_compute; reflexivity|].
  split.
  - eexists.
    split; [vm_compute; reflexivity|].
    split; [vm_compute; reflexivity|].
    split; vm_compute; reflexivity.
  - split; vm_compute; reflexivity.
Qed.

(** C6.  With include_unformed_particles = false, in normal mode with
    the Largest strategy, the particle of [Sample.mixed_pair] whose
    scaling factor is exactly 0.0 is stored in the single cell and is
    handed to the search-cell callback. *)
Theorem C6_unformed_particle_kept_by_largest :
  let p := Sample.unformed 1 fone fone fone in
  xsec_scaling_factor Sample.pow Sample.formation_power p Sample.tenth = fzero
  /\ exists g trace,
       Sample.Grid_of_particles Normal Sample.mixed_pair fone Sample.tenth
         ParticleNumber false Largest = Returns g
       /\ In p (concat (cells_ g))
       /\ iterate_cells Normal g = Returns trace
       /\ exists c, In c trace /\ In p (arguments c).
Proof.
  cbv zeta. split; [vm_compute; reflexivity|].
  eexists. eexists. split; [vm_compute; reflexivity|].
  split; [simpl; auto|].
  split; [vm_compute; reflexivity|].
  eexists. split; [left; reflexivity|]. simpl. auto.
Qed.

(** C7.  For [Sample.mixed_pair] with include_unformed_particles =
    false the Optimal strategy computes one cell per axis and falls
    back to a single cell holding the formed particle only, while the
    Largest strategy puts both particles into its single cell; the two
    grids and the arguments of their callbacks differ. *)
Theorem C7_dilute_fallback_differs_from_largest :
  let formed := Sample.formed 0 fzero fzero fzero in
  let unformed := Sample.unformed 1 fone fone fone in
  exists f g_optimal g_largest,
    geometry Normal Optimal ParticleNumber
      (max_cells_for Sample.cbrt_int Normal 2) fone
      (Sample.cube fone) = Returns ((1, 1, 1), f)
    /\ Sample.Grid_of_particles Normal Sample.mixed_pair fone Sample.tenth
         ParticleNumber false Optimal = Returns g_optimal
    /\ Sample.Grid_of_particles Normal Sample.mixed_pair fone Sample.tenth
         ParticleNumber false Largest = Returns g_largest
    /\ cells_ g_optimal = [[formed]]
    /\ cells_ g_largest = [[formed; unformed]]
    /\ cell_volume_ g_optimal = cell_volume_ g_largest
    /\ iterate_cells Normal g_optimal
       = Returns [search_cell_callback 0 [formed]]
    /\ iterate_cells Normal g_largest
       = Returns [search_cell_callback 0 [formed; unformed]].
Proof.
  cbv zeta. eexists. eexists. eexists.
  split; [vm_compute; reflexivity|].
  split; [vm_compute; reflexivity|].
  split; [vm_compute; reflexivity|].
  split; [vm_compute; reflexivity|].
  split; [vm_compute; reflexivity|].
  split; [vm_compute; reflexivity|].
  split; vm_compute; reflexivity.
Qed.

(** C2, the claim as stated fails: in periodic mode a unit box with the
    interaction length 1 makes the constructor throw the box-too-small
    error, so the (eligible) particle in it is placed in no cell. *)
Lemma C2_counterexample_box_too_small :
  ~ (forall O box ps mil dt limit incl strategy,
       bucketed_exactly_once Sample.pow Sample.formation_power Sample.cbrt_int
         O box ps mil dt limit incl strategy).
Proof.
  intros H.
  destruct (H PeriodicBoundaries (Sample.origin, Sample.cube fone)
              [Sample.formed 0 Sample.tenth Sample.tenth Sample.tenth]
              fone Sample.tenth NoLimitation false Optimal) as (g & Hg & _).
  vm_compute in Hg. discriminate.
Qed.

(** C10, the claim as stated fails: in periodic mode with the Largest
    strategy a particle at x = 100 in a box of length 10 makes the
    bucketing loop throw the out-of-bounds error. *)
Lemma C10_counterexample_out_of_bounds :
  ~ (forall O box ps mil dt limit incl e,
       Sample.Grid_ctor O box ps mil dt limit incl Largest <> Throws e).
Proof.
  intros H.
  apply (H PeriodicBoundaries (Sample.origin, Sample.cube (of_int 10))
           [Sample.formed 0 (of_int 100) fzero fzero]
           fone Sample.tenth NoLimitation false out_of_bounds).
  vm_compute. reflexivity.
Qed.


(** ** Bucketing *)

Lemma concat_repeat_nil {A} k : concat (repeat (@nil A) k) = [].
Proof. induction k; simpl; auto. Qed.

Lemma push_back_at_length cells idx p :
  length (push_back_at cells idx p) = length cells.
Proof.
  revert idx. induction cells as [|c cells IH]; intros [|k]; simpl; auto.
Qed.

Lemma push_back_at_concat cells idx p :
  (idx < length cells)%nat ->
  Permutation (concat (push_back_at cells idx p)) (concat cells ++ [p]).
Proof.
  revert idx. induction cells as [|c cells IH]; intros idx Hidx; simpl in *.
  - lia.
  - destruct idx as [|k]; simpl.
    + rewrite <- !app_assoc. apply Permutation_app_head.
      apply Permutation_app_comm.
    + rewrite <- app_assoc. apply Permutation_app_head.
      apply IH. lia.
Qed.

(** For a scaling factor that is a number, the two spellings of the
    eligibility test (grid.cc:232 and grid.cc:264) agree. *)
Lemma not_nan_le_gt x :
  is_nan x = false -> fle x fzero = negb (fgt x fzero).
Proof.
  destruct x as [s|s| |s m e]; try discriminate; intros _;
    destruct s; reflexivity.
Qed.

Section Bucketing.

Variable pow : double -> double -> double.
Variable formation_power_ : double.
Variable cbrt_int : Z -> Z.

Local Abbreviation keeps incl dt :=
  (fun p => negb (skipped pow formation_power_ incl dt p)).

Lemma place_permutation n minp f incl dt ps : forall cells cells',
  place pow formation_power_ n minp f incl dt ps cells = Returns cells' ->
  Permutation (concat cells') (concat cells ++ filter (keeps incl dt) ps).
Proof.
  induction ps as [|p ps IH]; intros cells cells'; simpl.
  - intros [= <-]. rewrite app_nil_r. apply Permutation_refl.
  - destruct (skipped pow formation_power_ incl dt p); simpl.
    + apply IH.
    + destruct (cell_index_for n minp f p) as [idx| | | |]; simpl;
        try discriminate.
      destruct (Z.leb_spec (Z.of_nat (length cells)) idx); [discriminate|].
      destruct (Z.ltb_spec idx 0); [discriminate|].
      intros Hrest. apply IH in Hrest.
      eapply Permutation_trans; [exact Hrest|].
      eapply Permutation_trans.
      * apply Permutation_app_tail. apply push_back_at_concat. lia.
      * rewrite <- app_assoc. apply Permutation_refl.
Qed.

Lemma kept_are_eligible incl dt ps :
  (incl = false ->
   forallb (fun p => negb (is_nan (xsec_scaling_factor pow formation_power_ p dt)))
     ps = true) ->
  filter (keeps incl dt) ps = eligible pow formation_power_ incl dt ps.
Proof.
  unfold eligible, skipped. destruct incl; simpl.
  - intros _. induction ps as [|p ps IH]; simpl; congruence.
  - intros H. specialize (H eq_refl).
    induction ps as [|p ps IH]; simpl in *; [reflexivity|].
    apply andb_true_iff in H. destruct H as [Hp Hps].
    unfold can_interact at 1.
    rewrite (not_nan_le_gt _ (proj1 (negb_true_iff _) Hp)).
    rewrite negb_involutive.
    rewrite (IH Hps). reflexivity.
Qed.

(** What the cells of a returned grid hold, on every path of the
    constructor: all particles on the single-cell fast path of normal
    mode with the Largest strategy, whatever the flag
    include_unformed_particles says, and the eligible particles on every
    other path. *)
Lemma cells_of_returned_grid O box ps mil dt limit incl strategy g :
  (incl = false ->
   forallb (fun p => negb (is_nan (xsec_scaling_factor pow formation_power_ p dt)))
     ps = true) ->
  Grid_ctor pow formation_power_ cbrt_int O box ps mil dt limit incl strategy
  = Returns g ->
  Permutation (concat (cells_ g))
    (if negb (is_periodic O) && is_largest strategy then ps
     else eligible pow formation_power_ incl dt ps).
Proof.
  intros Hnum. unfold Grid_ctor.
  destruct (negb (is_periodic O) && is_largest strategy) eqn:Hfast.
  - intros [= <-]. simpl. rewrite app_nil_r. apply Permutation_refl.
  - destruct (geometry O strategy limit
                (max_cells_for cbrt_int O (Z.of_nat (length ps))) mil (snd box))
      as [[n f]| | | |]; simpl; try discriminate.
    destruct (negb (is_periodic O) && all_at_most_2 n).
    + (* the dilute fallback *)
      intros [= <-]. simpl. rewrite app_nil_r. unfold eligible.
      apply Permutation_refl.
    + cell_total_cases n.
      destruct (cell_count n <? 0); [discriminate|].
      destruct (place pow formation_power_ n (fst box) f incl dt ps _)
        as [cells| | | |] eqn:Hplace; simpl; try discriminate.
      intros [= <-]. simpl.
      apply place_permutation in Hplace.
      rewrite concat_repeat_nil in Hplace. simpl in Hplace.
      rewrite (kept_are_eligible incl dt ps Hnum) in Hplace. exact Hplace.
Qed.

(** C2 (amended).  Whenever the constructor returns a grid, and the
    path taken is not the single-cell fast path of normal mode with the
    Largest strategy with include_unformed_particles = false, the
    contents of all cells together are a rearrangement of the eligible
    particles (of all particles when include_unformed_particles is
    set): every such particle is in exactly one cell, none is lost and
    none is duplicated.  Scaling factors are taken to be numbers. *)
Theorem C2_cells_hold_the_eligible_particles
    O box ps mil dt limit incl strategy g :
  (is_periodic O = true \/ strategy = Optimal \/ incl = true) ->
  (incl = false ->
   forallb (fun p => negb (is_nan (xsec_scaling_factor pow formation_power_ p dt)))
     ps = true) ->
  Grid_ctor pow formation_power_ cbrt_int O box ps mil dt limit incl strategy
  = Returns g ->
  Permutation (concat (cells_ g)) (eligible pow formation_power_ incl dt ps).
Proof.
  intros Hpath Hnum Hg.
  pose proof (cells_of_returned_grid _ _ _ _ _ _ _ _ _ Hnum Hg) as Hcells.
  destruct (negb (is_periodic O) && is_largest strategy) eqn:Hfast;
    [|exact Hcells].
  apply andb_true_iff in Hfast. destruct Hfast as [Hn Hl].
  assert (incl = true) as ->.
  { destruct Hpath as [Hp|[Hs|Hi]]; [| |assumption].
    - rewrite Hp in Hn. discriminate.
    - subst strategy. discriminate. }
  exact Hcells.
Qed.

(** Off that fast path, with include_unformed_particles = false, a
    particle whose scaling factor is exactly 0.0 is in no cell. *)
Lemma zero_factor_particle_in_no_cell O box ps mil dt limit strategy g p :
  negb (is_periodic O) && is_largest strategy = false ->
  forallb (fun p => negb (is_nan (xsec_scaling_factor pow formation_power_ p dt)))
    ps = true ->
  Grid_ctor pow formation_power_ cbrt_int O box ps mil dt limit false strategy
  = Returns g ->
  xsec_scaling_factor pow formation_power_ p dt = fzero ->
  ~ In p (concat (cells_ g)).
Proof.
  intros Hpath Hnum Hg Hzero Hin.
  pose proof (cells_of_returned_grid _ _ _ _ _ _ _ _ _ (fun _ => Hnum) Hg)
    as Hcells.
  rewrite Hpath in Hcells.
  apply (Permutation_in _ Hcells) in Hin.
  unfold eligible in Hin. apply filter_In in Hin. destruct Hin as [_ Hp].
  unfold can_interact in Hp. rewrite Hzero in Hp. discriminate.
Qed.

(** In normal mode, when the Optimal strategy computes at most 2 cells
    on every axis, it returns the single cell with the eligible
    particles, and the Largest strategy returns the single cell with all
    particles; the volumes agree, the contents agree exactly when the
    eligible particles are all particles. *)
Lemma dilute_fallback_and_largest box ps mil dt limit incl n f :
  geometry Normal Optimal limit (max_cells_for cbrt_int Normal (Z.of_nat (length ps)))
    mil (snd box) = Returns (n, f) ->
  all_at_most_2 n = true ->
  Grid_ctor pow formation_power_ cbrt_int Normal box ps mil dt limit incl Optimal
  = Returns (single_cell (snd box) (eligible pow formation_power_ incl dt ps))
  /\ Grid_ctor pow formation_power_ cbrt_int Normal box ps mil dt limit incl Largest
     = Returns (single_cell (snd box) ps).
Proof.
  intros Hgeo Hsmall. unfold Grid_ctor.
  cbn [is_periodic is_largest negb andb].
  rewrite Hgeo. cbn [bind]. rewrite Hsmall. split; reflexivity.
Qed.

End Bucketing.

Lemma C2_witness :
  exists g,
    Sample.Grid_ctor PeriodicBoundaries (Sample.origin, Sample.cube (of_int 10))
      Sample.face_pair fone Sample.tenth NoLimitation false Largest = Returns g
    /\ Permutation (concat (cells_ g))
         (eligible Sample.pow Sample.formation_power false Sample.tenth
            Sample.face_pair).
Proof.
  eexists. split.
  - vm_compute. reflexivity.
  - apply (C2_cells_hold_the_eligible_particles Sample.pow Sample.formation_power Sample.cbrt_int
             PeriodicBoundaries (Sample.origin, Sample.cube (of_int 10))
             Sample.face_pair fone Sample.tenth NoLimitation false Largest).
    + left. reflexivity.
    + intros _. vm_compute. reflexivity.
    + vm_compute. reflexivity.
Defined.

(** ** Arithmetic of flat indices *)

Lemma digit_unique m a a' x x' :
  0 <= x < m -> 0 <= x' < m -> a * m + x = a' * m + x' -> a = a' /\ x = x'.
Proof.
  intros Hx Hx' H.
  assert (a = a') by nia. subst. lia.
Qed.

Lemma make_index_inj n x y z x' y' z' :
  0 <= x < at3 n 0 -> 0 <= x' < at3 n 0 ->
  0 <= y < at3 n 1 -> 0 <= y' < at3 n 1 ->
  make_index n x y z = make_index n x' y' z' ->
  x = x' /\ y = y' /\ z = z'.
Proof.
  unfold make_index. intros Hx Hx' Hy Hy' H.
  apply digit_unique in H; try assumption. destruct H as [H ->].
  apply digit_unique in H; try assumption. destruct H as [-> ->]. auto.
Qed.





(** ** Sums over lists *)










(** ** Counting the calls of one search cell *)









(** ** Counting the calls of a whole enumeration *)



(** ** Projection of the traces on cell indices *)

Lemma neighbor_pairs_app {P} (t1 t2 : list (call P)) :
  neighbor_pairs (t1 ++ t2) = neighbor_pairs t1 ++ neighbor_pairs t2.
Proof. unfold neighbor_pairs. apply flat_map_app. Qed.

Lemma neighbor_pairs_flat_map {P A} (f : A -> list (call P)) l :
  neighbor_pairs (flat_map f l) = flat_map (fun x => neighbor_pairs (f x)) l.
Proof.
  induction l as [|x l IH]; simpl; [reflexivity|].
  rewrite neighbor_pairs_app, IH. reflexivity.
Qed.

Lemma neighbor_pairs_search {P} i s (t : list (call P)) :
  neighbor_pairs (search_cell_callback i s :: t) = neighbor_pairs t.
Proof. reflexivity. Qed.





(** ** The normal enumeration, axis by axis *)
















(** ** The periodic walk projected on cell indices *)

Section Walk.

Variable D : Type.
Variable zero : D.
Variable neg : D -> D.
Variable sub : D -> D -> D.
Variable eqb : D -> D -> bool.
Variable P : Type.
Variable translated : array3 D -> P -> P.

Local Abbreviation vsi := (virtual_search_index D P).
Local Abbreviation visiting := (visit D sub eqb P translated).
Local Abbreviation x_walk := (x_loop D neg sub eqb P translated).
Local Abbreviation y_walk := (y_loop D zero neg sub eqb P translated).
Local Abbreviation z_walk := (z_loop D zero neg sub eqb P translated).

Variable n : array3 Z.
Variable len : array3 D.
Variable cells : list (list P).
Variable sci : Z.

Lemma retranslate_index w :
  vsi (retranslate D sub eqb P translated w) = vsi w.
Proof.
  unfold retranslate.
  destruct (vneq D eqb (wrap_vector D P w) (current_wrap_vector D P w));
    reflexivity.
Qed.

Lemma visit_spec dx dy dz w vx vy vz :
  vsi w = (vx, vy, vz) ->
  neighbor_pairs (fst (visiting n cells sci dx dy dz w))
  = guarded_pair n sci (index dz, vz) (index dy, vy) (index dx, vx)
  /\ vsi (snd (visiting n cells sci dx dy dz w)) = (vx, vy, vz).
Proof.
  intros Hv. unfold visit, guarded_pair. rewrite Hv. cbn [fst snd].
  rewrite Z.leb_antisym.
  destruct (make_index n vx vy vz
            <? make_index n (index dx) (index dy) (index dz));
    cbn [negb fst snd].
  - split; [reflexivity|]. rewrite retranslate_index. assumption.
  - split; [reflexivity|assumption].
Qed.

Lemma enter_index i d w :
  vsi (enter D neg P i n len d w)
  = match wrap d with
    | No => vsi w
    | MinusLength => set3 (vsi w) i (-1)
    | PlusLength => set3 (vsi w) i (at3 n i)
    end.
Proof. unfold enter. destruct (wrap d); reflexivity. Qed.

Lemma enter_z_index d w :
  vsi (enter_z D neg P len d w)
  = match wrap d with
    | MinusLength => set3 (vsi w) 2 (-1)
    | _ => vsi w
    end.
Proof. unfold enter_z. destruct (wrap d); reflexivity. Qed.

Lemma leave_index i si w :
  vsi (leave D zero P i si w) = set3 (vsi w) i (at3 si i).
Proof. reflexivity. Qed.

Lemma x_loop_spec l dy dz : forall w vx vy vz,
  vsi w = (vx, vy, vz) ->
  last_wraps l ->
  neighbor_pairs (fst (x_walk n len cells sci l dy dz w))
  = flat_map (guarded_pair n sci (index dz, vz) (index dy, vy))
      (lookups vx (at3 n 0) l)
  /\ exists v', vsi (snd (x_walk n len cells sci l dy dz w)) = (v', vy, vz).
Proof.
  unfold last_wraps.
  induction l as [|d l IH]; intros w vx vy vz Hv Hl.
  - simpl. split; [reflexivity|]. eauto.
  - cbn [x_loop].
    assert (Hd : vsi (enter D neg P 0 n len d w)
                 = (virtual_of vx (at3 n 0) d, vy, vz)).
    { rewrite enter_index, Hv. unfold virtual_of.
      destruct (wrap d); reflexivity. }
    destruct (visit_spec d dy dz _ _ _ _ Hd) as (Hp & Hv1).
    destruct (visiting n cells sci d dy dz (enter D neg P 0 n len d w))
      as [c1 w1] eqn:E1. cbn [fst snd] in Hp, Hv1.
    destruct l as [|d' l'].
    + simpl. rewrite !app_nil_r, Hp. split; [reflexivity|]. eauto.
    + assert (Hno : wrap d = No) by (inversion Hl; assumption).
      assert (Hl' : Forall (fun d => wrap d = No) (removelast (d' :: l')))
        by (inversion Hl; assumption).
      unfold virtual_of in Hv1. rewrite Hno in Hv1.
      destruct (IH w1 vx vy vz Hv1 Hl') as (Hrest & v' & Hv').
      destruct (x_walk n len cells sci (d' :: l') dy dz w1) as [c2 w2] eqn:E2.
      cbn [fst snd] in *.
      rewrite neighbor_pairs_app, Hp, Hrest. split; [|eauto].
      reflexivity.
Qed.

Lemma y_loop_spec si dxl l dz : forall w vy vz,
  vsi w = (at3 si 0, vy, vz) ->
  last_wraps dxl -> last_wraps l ->
  neighbor_pairs (fst (y_walk n len cells si sci dxl l dz w))
  = flat_map (fun cy =>
      flat_map (guarded_pair n sci (index dz, vz) cy)
        (lookups (at3 si 0) (at3 n 0) dxl))
      (lookups vy (at3 n 1) l)
  /\ exists v',
       vsi (snd (y_walk n len cells si sci dxl l dz w)) = (at3 si 0, v', vz).
Proof.
  unfold last_wraps.
  induction l as [|d l IH]; intros w vy vz Hv Hx Hl.
  - simpl. split; [reflexivity|]. eauto.
  - cbn [y_loop].
    assert (Hd : vsi (enter D neg P 1 n len d w)
                 = (at3 si 0, virtual_of vy (at3 n 1) d, vz)).
    { rewrite enter_index, Hv. unfold virtual_of.
      destruct (wrap d); reflexivity. }
    destruct (x_loop_spec dxl d dz _ _ _ _ Hd Hx) as (Hp & v0 & Hv1).
    destruct (x_walk n len cells sci dxl d dz (enter D neg P 1 n len d w))
      as [c1 w1] eqn:E1. cbn [fst snd] in Hp, Hv1.
    assert (Hv2 : vsi (leave D zero P 0 si w1)
                  = (at3 si 0, virtual_of vy (at3 n 1) d, vz)).
    { rewrite leave_index, Hv1. reflexivity. }
    destruct l as [|d' l'].
    + simpl. rewrite !app_nil_r, Hp. split; [reflexivity|]. eauto.
    + assert (Hno : wrap d = No) by (inversion Hl; assumption).
      assert (Hl' : Forall (fun d => wrap d = No) (removelast (d' :: l')))
        by (inversion Hl; assumption).
      unfold virtual_of in Hv2. rewrite Hno in Hv2.
      destruct (IH _ vy vz Hv2 Hx Hl') as (Hrest & v' & Hv').
      destruct (y_walk n len cells si sci dxl (d' :: l') dz
                  (leave D zero P 0 si w1)) as [c2 w2] eqn:E2.
      cbn [fst snd] in *.
      rewrite neighbor_pairs_app, Hp, Hrest. split; [|eauto].
      reflexivity.
Qed.

Lemma z_loop_spec si dxl dyl l : forall w vz,
  vsi w = (at3 si 0, at3 si 1, vz) ->
  last_wraps dxl -> last_wraps dyl -> last_wraps l ->
  neighbor_pairs (fst (z_walk n len cells si sci dxl dyl l w))
  = flat_map (fun cz =>
      flat_map (fun cy =>
        flat_map (guarded_pair n sci cz cy)
          (lookups (at3 si 0) (at3 n 0) dxl))
        (lookups (at3 si 1) (at3 n 1) dyl))
      (lookups_z vz l).
Proof.
  unfold last_wraps.
  induction l as [|d l IH]; intros w vz Hv Hx Hy Hl.
  - reflexivity.
  - cbn [z_loop].
    assert (Hd : vsi (enter_z D neg P len d w)
                 = (at3 si 0, at3 si 1, virtual_of_z vz d)).
    { rewrite enter_z_index, Hv. unfold virtual_of_z.
      destruct (wrap d); reflexivity. }
    destruct (y_loop_spec si dxl dyl d _ _ _ Hd Hx Hy) as (Hp & v0 & Hv1).
    destruct (y_walk n len cells si sci dxl dyl d (enter_z D neg P len d w))
      as [c1 w1] eqn:E1. cbn [fst snd] in Hp, Hv1.
    assert (Hv2 : vsi (leave D zero P 1 si w1)
                  = (at3 si 0, at3 si 1, virtual_of_z vz d)).
    { rewrite leave_index, Hv1. reflexivity. }
    destruct l as [|d' l'].
    + simpl. rewrite !app_nil_r, Hp. reflexivity.
    + assert (Hno : wrap d = No) by (inversion Hl; assumption).
      assert (Hl' : Forall (fun d => wrap d = No) (removelast (d' :: l')))
        by (inversion Hl; assumption).
      unfold virtual_of_z in Hv2. rewrite Hno in Hv2.
      pose proof (IH _ vz Hv2 Hx Hy Hl') as Hrest.
      destruct (z_walk n len cells si sci dxl dyl (d' :: l')
                  (leave D zero P 1 si w1)) as [c2 w2] eqn:E2.
      cbn [fst snd] in *.
      rewrite neighbor_pairs_app, Hp, Hrest. reflexivity.
Qed.

End Walk.

Lemma d_list_periodic_last_wraps m a : last_wraps (d_list_periodic m a).
Proof.
  unfold last_wraps, d_list_periodic.
  destruct (a =? 0); [|destruct (a + 1 =? m)]; simpl;
    repeat constructor.
Qed.

Lemma dz_list_periodic_last_wraps m a : last_wraps (dz_list_periodic m a).
Proof.
  unfold last_wraps, dz_list_periodic. simpl. repeat constructor.
Qed.

Lemma neighbor_pairs_periodic_cell D zero neg sub eqb P translated
    n len cells x y z :
  neighbor_pairs
    (periodic_cell D zero neg sub eqb P translated n len cells x y z)
  = periodic_cell_pairs n x y z.
Proof.
  unfold periodic_cell, periodic_cell_pairs, entry_pairs.
  rewrite neighbor_pairs_search.
  apply (z_loop_spec D zero neg sub eqb P translated n len cells
           (make_index n x y z) (x, y, z)).
  - reflexivity.
  - apply d_list_periodic_last_wraps.
  - apply d_list_periodic_last_wraps.
  - apply dz_list_periodic_last_wraps.
Qed.

Lemma iterate_cells_periodic_returns D zero neg sub eqb P translated
    n len cells :
  2 <= at3 n 0 -> 2 <= at3 n 1 -> 2 <= at3 n 2 ->
  exists trace,
    iterate_cells_periodic D zero neg sub eqb P translated n len cells
    = Returns trace
    /\ neighbor_pairs trace
       = flat_map (fun z => flat_map (fun y => flat_map (fun x =>
           periodic_cell_pairs n x y z) (range (at3 n 0))) (range (at3 n 1)))
           (range (at3 n 2)).
Proof.
  intros Hx Hy Hz. unfold iterate_cells_periodic.
  destruct (Z.leb_spec 2 (at3 n 2)); [|lia].
  destruct (Z.leb_spec 2 (at3 n 1)); [|lia].
  destruct (Z.leb_spec 2 (at3 n 0)); [|lia].
  cbn [andb]. eexists. split; [reflexivity|].
  rewrite neighbor_pairs_flat_map. apply flat_map_ext. intros z.
  rewrite neighbor_pairs_flat_map. apply flat_map_ext. intros y.
  rewrite neighbor_pairs_flat_map. apply flat_map_ext. intros x.
  apply neighbor_pairs_periodic_cell.
Qed.

(** ** The periodic enumeration, axis by axis *)




















(** ** The wrapped copy of the search cell *)

Section WrappedCopy.

Variable D : Type.
Variable zero : D.
Variable neg : D -> D.
Variable sub : D -> D -> D.
Variable eqb : D -> D -> bool.
Variable P : Type.
Variable translated : array3 D -> P -> P.

Local Abbreviation visit' := (visit D sub eqb P translated).
Local Abbreviation x_loop' := (x_loop D neg sub eqb P translated).
Local Abbreviation y_loop' := (y_loop D zero neg sub eqb P translated).
Local Abbreviation z_loop' := (z_loop D zero neg sub eqb P translated).

Lemma x_loop_cons n len cells sci dx rest dy dz (w : walk D P) :
  fst (x_loop' n len cells sci (dx :: rest) dy dz w)
  = fst (visit' n cells sci dx dy dz (enter D neg P 0 n len dx w))
    ++ fst (x_loop' n len cells sci rest dy dz
              (snd (visit' n cells sci dx dy dz (enter D neg P 0 n len dx w)))).
Proof.
  cbn [x_loop].
  destruct (visit _ _ _ _ _ _ _ _ _ _ _ _) as [c1 w1].
  destruct (x_loop _ _ _ _ _ _ _ _ _ _ _ _ _ _) as [c2 w2].
  reflexivity.
Qed.

Lemma y_loop_cons n len cells si sci dxl dy rest dz (w : walk D P) :
  fst (y_loop' n len cells si sci dxl (dy :: rest) dz w)
  = fst (x_loop' n len cells sci dxl dy dz (enter D neg P 1 n len dy w))
    ++ fst (y_loop' n len cells si sci dxl rest dz
              (leave D zero P 0 si
                 (snd (x_loop' n len cells sci dxl dy dz
                         (enter D neg P 1 n len dy w))))).
Proof.
  cbn [y_loop].
  destruct (x_loop _ _ _ _ _ _ _ _ _ _ _ _ _ _) as [c1 w1].
  destruct (y_loop _ _ _ _ _ _ _ _ _ _ _ _ _ _ _ _) as [c2 w2].
  reflexivity.
Qed.

Lemma z_loop_cons n len cells si sci dxl dyl dz rest (w : walk D P) :
  fst (z_loop' n len cells si sci dxl dyl (dz :: rest) w)
  = fst (y_loop' n len cells si sci dxl dyl dz (enter_z D neg P len dz w))
    ++ fst (z_loop' n len cells si sci dxl dyl rest
              (leave D zero P 1 si
                 (snd (y_loop' n len cells si sci dxl dyl dz
                         (enter_z D neg P len dz w))))).
Proof.
  cbn [z_loop].
  destruct (y_loop _ _ _ _ _ _ _ _ _ _ _ _ _ _ _ _) as [c1 w1].
  destruct (z_loop _ _ _ _ _ _ _ _ _ _ _ _ _ _ _ _) as [c2 w2].
  reflexivity.
Qed.



End WrappedCopy.

(** ** Two particles on opposite faces of a periodic box *)







Section AcrossTheBoundary.

Variable pow : double -> double -> double.
Variable formation_power_ : double.
Variable cbrt_int : Z -> Z.



End AcrossTheBoundary.



(** ** The running cell counter

    Both enumerations keep a counter [search_cell_index] that is
    incremented with every cell and is asserted to equal
    [make_index(search_index)] (grid.cc:315, 421); the definitions above
    use [make_index] in its place.  The search callback therefore
    receives the cells in the order of their flat indices
    0, 1, 2, ..., the value the counter has at each call. *)

Lemma range_succ n : 0 <= n -> range (n + 1) = range n ++ [n].
Proof.
  intros Hn. unfold range.
  replace (Z.to_nat (n + 1)) with (S (Z.to_nat n)) by lia.
  rewrite seq_S, map_app. simpl. rewrite Z2Nat.id by lia. reflexivity.
Qed.

Lemma range_plus a m :
  0 <= a -> 0 <= m ->
  range (a + m) = range a ++ map (fun r => a + r) (range m).
Proof.
  intros Ha Hm. revert m Hm. apply natlike_ind.
  - rewrite Z.add_0_r. change (range 0) with (@nil Z). simpl.
    rewrite app_nil_r. reflexivity.
  - intros m Hm IH. unfold Z.succ.
    rewrite Z.add_assoc, !range_succ by lia.
    rewrite IH, map_app, app_assoc. reflexivity.
Qed.

Lemma range_block m k :
  0 <= m -> 0 <= k ->
  flat_map (fun q => map (fun r => q * m + r) (range m)) (range k)
  = range (k * m).
Proof.
  intros Hm Hk. revert k Hk. apply natlike_ind.
  - reflexivity.
  - intros k Hk IH. unfold Z.succ.
    rewrite range_succ, flat_map_app, IH by lia. simpl.
    rewrite app_nil_r.
    replace ((k + 1) * m) with (k * m + m) by ring.
    rewrite range_plus by nia. reflexivity.
Qed.

Lemma flat_map_singleton {A B} (f : A -> B) l :
  flat_map (fun x => [f x]) l = map f l.
Proof. induction l; simpl; congruence. Qed.

Lemma flat_map_of_map {A B C} (g : B -> list C) (k : A -> B) l :
  flat_map g (map k l) = flat_map (fun x => g (k x)) l.
Proof. induction l; simpl; congruence. Qed.

Lemma flat_map_of_flat_map {A B C} (g : B -> list C) (h : A -> list B) l :
  flat_map g (flat_map h l) = flat_map (fun x => flat_map g (h x)) l.
Proof.
  induction l as [|x l IH]; simpl; [reflexivity|].
  rewrite flat_map_app, IH. reflexivity.
Qed.

(** Enumerating z, then y, then x yields the flat indices in increasing
    order. *)
Lemma make_index_counts n :
  0 <= at3 n 0 -> 0 <= at3 n 1 -> 0 <= at3 n 2 ->
  flat_map (fun z => flat_map (fun y => map (fun x => make_index n x y z)
    (range (at3 n 0))) (range (at3 n 1))) (range (at3 n 2))
  = range (at3 n 2 * at3 n 1 * at3 n 0).
Proof.
  intros Hx Hy Hz.
  rewrite <- (range_block (at3 n 0) (at3 n 2 * at3 n 1)) by nia.
  rewrite <- (range_block (at3 n 1) (at3 n 2)) by lia.
  rewrite flat_map_of_flat_map.
  apply flat_map_ext. intros z.
  rewrite flat_map_of_map. reflexivity.
Qed.

Lemma search_cells_app {P} (t1 t2 : list (call P)) :
  search_cells (t1 ++ t2) = search_cells t1 ++ search_cells t2.
Proof. unfold search_cells. apply flat_map_app. Qed.

Lemma search_cells_flat_map {P A} (f : A -> list (call P)) l :
  search_cells (flat_map f l) = flat_map (fun x => search_cells (f x)) l.
Proof.
  induction l as [|x l IH]; simpl; [reflexivity|].
  rewrite search_cells_app, IH. reflexivity.
Qed.

Lemma flat_map_nil {A B} (f : A -> list B) l :
  (forall x, f x = []) -> flat_map f l = [].
Proof.
  intros H. induction l as [|x l IH]; simpl; [reflexivity|].
  rewrite H, IH. reflexivity.
Qed.

Lemma search_cells_search {P} i s (t : list (call P)) :
  search_cells (search_cell_callback i s :: t) = i :: search_cells t.
Proof. reflexivity. Qed.

Lemma search_cells_normal_cell P n cells x y z :
  search_cells (normal_cell P n cells x y z) = [make_index n x y z].
Proof.
  unfold normal_cell. rewrite search_cells_search. f_equal.
  rewrite search_cells_flat_map. apply flat_map_nil. intros dz.
  rewrite search_cells_flat_map. apply flat_map_nil. intros dy.
  rewrite search_cells_flat_map. apply flat_map_nil. intros dx.
  destruct (0 <? _); reflexivity.
Qed.

Lemma search_cells_in_order (f : Z -> Z -> Z -> list Z) n :
  (forall x y z, f x y z = [make_index n x y z]) ->
  0 <= at3 n 0 -> 0 <= at3 n 1 -> 0 <= at3 n 2 ->
  flat_map (fun z => flat_map (fun y => flat_map (fun x => f x y z)
    (range (at3 n 0))) (range (at3 n 1))) (range (at3 n 2))
  = range (at3 n 2 * at3 n 1 * at3 n 0).
Proof.
  intros Hf Hx Hy Hz. rewrite <- make_index_counts by assumption.
  apply flat_map_ext. intros z. apply flat_map_ext. intros y.
  rewrite <- flat_map_singleton. apply flat_map_ext. intros x. apply Hf.
Qed.

(** In normal mode the k-th call of the search callback is for cell k. *)
Lemma search_cells_normal P n cells :
  0 <= at3 n 0 -> 0 <= at3 n 1 -> 0 <= at3 n 2 ->
  search_cells (iterate_cells_normal P n cells)
  = range (at3 n 2 * at3 n 1 * at3 n 0).
Proof.
  intros Hx Hy Hz. unfold iterate_cells_normal.
  rewrite search_cells_flat_map.
  rewrite <- (search_cells_in_order
                (fun x y z => search_cells (normal_cell P n cells x y z)) n);
    try assumption.
  - apply flat_map_ext. intros z.
    rewrite search_cells_flat_map. apply flat_map_ext. intros y.
    rewrite search_cells_flat_map. reflexivity.
  - intros x y z. apply search_cells_normal_cell.
Qed.

Section Counter.

Variable D : Type.
Variable zero : D.
Variable neg : D -> D.
Variable sub : D -> D -> D.
Variable eqb : D -> D -> bool.
Variable P : Type.
Variable translated : array3 D -> P -> P.

Lemma search_cells_visit n cells sci dx dy dz (w : walk D P) :
  search_cells (fst (visit D sub eqb P translated n cells sci dx dy dz w)) = [].
Proof.
  unfold visit. destruct (virtual_search_index D P w) as [[vx vy] vz].
  destruct (_ <=? _); reflexivity.
Qed.

Lemma search_cells_x_loop n len cells sci dxl dy dz (w : walk D P) :
  search_cells
    (fst (x_loop D neg sub eqb P translated n len cells sci dxl dy dz w)) = [].
Proof.
  revert w. induction dxl as [|dx rest IH]; intros w; [reflexivity|].
  rewrite x_loop_cons, search_cells_app, search_cells_visit, IH.
  reflexivity.
Qed.

Lemma search_cells_y_loop n len cells si sci dxl dyl dz (w : walk D P) :
  search_cells
    (fst (y_loop D zero neg sub eqb P translated n len cells si sci
            dxl dyl dz w)) = [].
Proof.
  revert w. induction dyl as [|dy rest IH]; intros w; [reflexivity|].
  rewrite y_loop_cons, search_cells_app, search_cells_x_loop, IH.
  reflexivity.
Qed.

Lemma search_cells_z_loop n len cells si sci dxl dyl dzl (w : walk D P) :
  search_cells
    (fst (z_loop D zero neg sub eqb P translated n len cells si sci
            dxl dyl dzl w)) = [].
Proof.
  revert w. induction dzl as [|dz rest IH]; intros w; [reflexivity|].
  rewrite z_loop_cons, search_cells_app, search_cells_y_loop, IH.
  reflexivity.
Qed.

(** In periodic mode, too, the k-th call of the search callback is for
    cell k. *)
Lemma search_cells_periodic n len cells trace :
  iterate_cells_periodic D zero neg sub eqb P translated n len cells
  = Returns trace ->
  search_cells trace = range (at3 n 2 * at3 n 1 * at3 n 0).
Proof.
  unfold iterate_cells_periodic.
  destruct (Z.leb_spec 2 (at3 n 2)); [|discriminate].
  destruct (Z.leb_spec 2 (at3 n 1)); [|discriminate].
  destruct (Z.leb_spec 2 (at3 n 0)); [|discriminate].
  cbn [andb]. intros Hrun. injection Hrun as <-.
  rewrite search_cells_flat_map.
  rewrite <- (search_cells_in_order
                (fun x y z =>
                   search_cells
                     (periodic_cell D zero neg sub eqb P translated
                        n len cells x y z)) n) by (try lia; intros x y z;
      unfold periodic_cell; rewrite search_cells_search, search_cells_z_loop;
      reflexivity).
  apply flat_map_ext. intros z.
  rewrite search_cells_flat_map. apply flat_map_ext. intros y.
  rewrite search_cells_flat_map. reflexivity.
Qed.

End Counter.

(* ===================================================================== *)
(** * Part III. Further properties of the code *)
(* ===================================================================== *)

(** ** The flat index *)

(** X1.  In a grid with at least one cell on every axis, [make_index]
    numbers the cells: the index of a cell of the grid is a position of
    [cells_], two different cells have different indices, and every
    position of [cells_] is the index of a cell. *)
Theorem make_index_numbers_the_cells (n : array3 Z) :
  1 <= at3 n 0 -> 1 <= at3 n 1 -> 1 <= at3 n 2 ->
  (forall a, in_grid n a -> 0 <= flat n a < cell_count n)
  /\ (forall a b, in_grid n a -> in_grid n b -> flat n a = flat n b -> a = b)
  /\ (forall k, 0 <= k < cell_count n ->
        exists a, in_grid n a /\ flat n a = k).
Proof.
  destruct n as [[nx ny] nz]. unfold cell_count, in_grid, flat, make_index.
  cbn [at3]. intros Hx Hy Hz. split; [|split].
  - intros [[x y] z]. cbn [at3]. intros (Hx' & Hy' & Hz').
    assert (0 <= z * ny + y <= nz * ny - 1) by nia.
    nia.
  - intros [[x y] z] [[x' y'] z']. cbn [at3].
    intros (Ha0 & Ha1 & Ha2) (Hb0 & Hb1 & Hb2) H.
    apply (make_index_inj (nx, ny, nz)) in H; cbn [at3]; try assumption.
    destruct H as (-> & -> & ->). reflexivity.
  - intros k Hk.
    exists (k mod nx, (k / nx) mod ny, k / nx / ny). cbn [at3].
    pose proof (Z.mod_pos_bound k nx ltac:(lia)).
    pose proof (Z.mod_pos_bound (k / nx) ny ltac:(lia)).
    pose proof (Z.div_mod k nx ltac:(lia)).
    pose proof (Z.div_mod (k / nx) ny ltac:(lia)).
    assert (0 <= k / nx) by (apply Z.div_pos; lia).
    assert (0 <= k / nx / ny) by (apply Z.div_pos; lia).
    assert (k / nx / ny < nz).
    { apply Z.div_lt_upper_bound; [lia|].
      apply Z.div_lt_upper_bound; [lia|]. nia. }
    repeat split; (lia || nia).
Qed.

Lemma make_index_numbers_the_cells_witness :
  (forall a, in_grid (3, 4, 5) a -> 0 <= flat (3, 4, 5) a < cell_count (3, 4, 5))
  /\ (forall a b, in_grid (3, 4, 5) a -> in_grid (3, 4, 5) b ->
        flat (3, 4, 5) a = flat (3, 4, 5) b -> a = b)
  /\ (forall k, 0 <= k < cell_count (3, 4, 5) ->
        exists a, in_grid (3, 4, 5) a /\ flat (3, 4, 5) a = k).
Proof.
  apply (make_index_numbers_the_cells (3, 4, 5)); simpl; lia.
Defined.

(** ** The size of the cell storage *)

Section Storage.

Variable pow : double -> double -> double.
Variable formation_power_ : double.
Variable cbrt_int : Z -> Z.

Lemma place_length n minp f incl dt ps : forall cells cells',
  place pow formation_power_ n minp f incl dt ps cells = Returns cells' ->
  length cells' = length cells.
Proof.
  induction ps as [|p ps IH]; intros cells cells'; simpl.
  - intros [= <-]. reflexivity.
  - destruct (skipped pow formation_power_ incl dt p); [apply IH|].
    destruct (cell_index_for n minp f p) as [idx| | | |]; simpl;
      try discriminate.
    destruct (Z.of_nat (length cells) <=? idx); [discriminate|].
    destruct (idx <? 0); [discriminate|].
    intros H. apply IH in H. rewrite H. apply push_back_at_length.
Qed.

Lemma returned_cells_length O box ps mil dt limit incl strategy g :
  Grid_ctor pow formation_power_ cbrt_int O box ps mil dt limit incl strategy
  = Returns g ->
  Z.of_nat (length (cells_ g)) = cell_count (number_of_cells_ g).
Proof.
  unfold Grid_ctor.
  destruct (negb (is_periodic O) && is_largest strategy).
  - intros [= <-]. reflexivity.
  - destruct (geometry O strategy limit
                (max_cells_for cbrt_int O (Z.of_nat (length ps))) mil (snd box))
      as [[n f]| | | |]; simpl; try discriminate.
    destruct (negb (is_periodic O) && all_at_most_2 n).
    + intros [= <-]. reflexivity.
    + cell_total_cases n.
      destruct (Z.ltb_spec (cell_count n) 0); [discriminate|].
      destruct (place pow formation_power_ n (fst box) f incl dt ps _)
        as [cells| | | |] eqn:Hplace; simpl; try discriminate.
      intros [= <-]. cbn [cells_ number_of_cells_].
      apply place_length in Hplace. rewrite Hplace, repeat_length. lia.
Qed.

(** The product of the counts of a returned grid was computed without
    overflow and is not negative. *)
Lemma returned_cell_count_is_int O box ps mil dt limit incl strategy g :
  Grid_ctor pow formation_power_ cbrt_int O box ps mil dt limit incl strategy
  = Returns g ->
  0 <= cell_count (number_of_cells_ g) <= INT_MAX.
Proof.
  unfold Grid_ctor.
  destruct (negb (is_periodic O) && is_largest strategy).
  - intros [= <-]. cbn. unfold INT_MAX. lia.
  - destruct (geometry O strategy limit
                (max_cells_for cbrt_int O (Z.of_nat (length ps))) mil (snd box))
      as [[n f]| | | |]; simpl; try discriminate.
    destruct (negb (is_periodic O) && all_at_most_2 n).
    + intros [= <-]. cbn. unfold INT_MAX. lia.
    + cell_total_cases n.
      destruct (Z.ltb_spec (cell_count n) 0); [discriminate|].
      destruct (place pow formation_power_ n (fst box) f incl dt ps _)
        as [cells| | | |] eqn:Hplace; simpl; try discriminate.
      intros [= <-]. cbn [cells_ number_of_cells_]. lia.
Qed.

(** X2.  Every grid that the constructor returns has as many cells in
    [cells_] as [number_of_cells_] announces, on the two single-cell
    paths as well as after the bucketing loop: the product of the three
    counts, which then is an [int] that was computed without overflow
    and is not negative. *)
Theorem cells_size_is_the_product O box ps mil dt limit incl strategy g :
  Grid_ctor pow formation_power_ cbrt_int O box ps mil dt limit incl strategy
  = Returns g ->
  Z.of_nat (length (cells_ g)) = cell_count (number_of_cells_ g)
  /\ 0 <= cell_count (number_of_cells_ g) <= INT_MAX.
Proof.
  intros Hg. split.
  - exact (returned_cells_length _ _ _ _ _ _ _ _ _ Hg).
  - exact (returned_cell_count_is_int _ _ _ _ _ _ _ _ _ Hg).
Qed.

End Storage.

Lemma cells_size_is_the_product_witness :
  exists g,
    Sample.Grid_ctor PeriodicBoundaries (Sample.origin, Sample.cube (of_int 10))
      Sample.face_pair fone Sample.tenth NoLimitation false Optimal = Returns g
    /\ Z.of_nat (length (cells_ g)) = cell_count (number_of_cells_ g)
    /\ 0 <= cell_count (number_of_cells_ g) <= INT_MAX.
Proof.
  eexists. split; [vm_compute; reflexivity|].
  apply (cells_size_is_the_product Sample.pow Sample.formation_power Sample.cbrt_int
           PeriodicBoundaries (Sample.origin, Sample.cube (of_int 10))
           Sample.face_pair fone Sample.tenth NoLimitation false Optimal).
  vm_compute. reflexivity.
Defined.

(** ** The cell counts of a returned grid *)

Lemma binary_round_aux_not_negative m e l :
  not_negative (binary_round_aux prec emax false m e l) = true.
Proof.
  unfold binary_round_aux.
  destruct (shr_fexp prec emax m e l) as [mrs' e'].
  destruct (shr_fexp prec emax _ e' loc_Exact) as [mrs'' e''].
  destruct (shr_m mrs''); [reflexivity| |reflexivity].
  destruct (e'' <=? emax - prec); reflexivity.
Qed.

Lemma fmul_not_negative x y :
  not_negative x = true -> not_negative y = true ->
  not_negative (fmul x y) = true.
Proof.
  unfold fmul.
  destruct x as [sx|sx| |sx mx ex], y as [sy|sy| |sy my ey];
    try destruct sx; try destruct sy; simpl; intros Hx Hy;
    try reflexivity; try discriminate.
  apply binary_round_aux_not_negative.
Qed.

Lemma fdiv_not_negative x y :
  not_negative x = true -> flt fzero y = true ->
  not_negative (fdiv x y) = true.
Proof.
  unfold fdiv, flt.
  destruct x as [sx|sx| |sx mx ex], y as [sy|sy| |sy my ey];
    try destruct sx; try destruct sy; simpl; intros Hx Hy;
    try reflexivity; try discriminate.
  match goal with
  | |- context [SFdiv_core_binary ?p ?q ?a ?b ?c ?d] =>
      destruct (SFdiv_core_binary p q a b c d) as [[mz ez] lz]
  end.
  apply binary_round_aux_not_negative.
Qed.

Lemma floor_Z_not_negative x z :
  not_negative x = true -> floor_Z x = Some z -> 0 <= z.
Proof.
  destruct x as [s|s| |s m e]; try discriminate.
  - intros _ [= <-]. lia.
  - destruct s; [discriminate|]. intros _.
    assert (0 <= Z.pos m * 2 ^ e) as Hup.
    { destruct (Z.le_gt_cases 0 e).
      - apply Z.mul_nonneg_nonneg; [lia|]. apply Z.pow_nonneg. lia.
      - rewrite Z.pow_neg_r by lia. lia. }
    assert (0 <= Z.pos m / 2 ^ (- e)) as Hdown.
    { destruct (Z.le_gt_cases 0 (- e)).
      - apply Z.div_pos; [lia|]. apply Z.pow_pos_nonneg; lia.
      - rewrite Z.pow_neg_r by lia. rewrite Z.div_0_r. lia. }
    unfold floor_Z, cond_Zopp. intros H. injection H as H. subst z.
    destruct (0 <=? e); assumption.
Qed.

Lemma fle_zero_not_negative x : fle fzero x = true -> not_negative x = true.
Proof. destruct x as [s|s| |s m e]; try destruct s; simpl; auto. Qed.

Lemma flt_zero_not_negative x : flt fzero x = true -> not_negative x = true.
Proof. destruct x as [s|s| |s m e]; try destruct s; simpl; auto. Qed.

(** With a positive interaction length, an axis that is not of negative
    length gets no negative count from grid.cc:165-166. *)
Lemma raw_cells_not_negative mil len k :
  flt fzero mil = true -> fle fzero len = true ->
  raw_cells mil len = Some k -> 0 <= k.
Proof.
  intros Hmil Hlen. unfold raw_cells, floor_int.
  destruct (floor_Z (fmul len (fdiv fone mil))) as [z|] eqn:Hz;
    [|discriminate].
  destruct ((INT_MIN <=? z) && (z <=? INT_MAX)); [|discriminate].
  intros [= <-]. revert Hz. apply floor_Z_not_negative.
  apply fmul_not_negative; [apply fle_zero_not_negative; exact Hlen|].
  apply fdiv_not_negative; [reflexivity|exact Hmil].
Qed.

Lemma axis_count O strategy limit mc mil len n f :
  axis O strategy limit mc mil len = Returns (n, f) ->
  exists n0,
    count_cells strategy mil len = Returns n0
    /\ clamp_cells O limit mc n0 = Returns n.
Proof.
  unfold axis.
  destruct (count_cells strategy mil len) as [n0| | | |]; simpl;
    try discriminate.
  destruct (clamp_cells O limit mc n0) as [n1| | | |] eqn:Hclamp; simpl;
    try discriminate.
  destruct (rescale mil len n1) as [f1| | | |]; simpl; try discriminate.
  intros [= <- <-]. exists n0. split; [reflexivity|exact Hclamp].
Qed.

(** In periodic mode an axis that completes has at least 2 cells. *)
Lemma axis_periodic_at_least_2 cbrt_int strategy limit count mil len n f :
  axis PeriodicBoundaries strategy limit
    (max_cells_for cbrt_int PeriodicBoundaries count) mil len = Returns (n, f) ->
  2 <= n.
Proof.
  intros H. apply axis_count in H. destruct H as (n0 & _ & H).
  unfold clamp_cells in H. cbn [is_periodic negb andb] in H.
  rewrite !andb_false_r, !andb_true_r in H.
  destruct (Z.ltb_spec n0 2); [discriminate|].
  destruct (limits limit && (max_cells_for cbrt_int PeriodicBoundaries count <? n0)).
  - injection H as <-. unfold max_cells_for. lia.
  - injection H as <-. assumption.
Qed.

(** ** The calls of the search callback *)

Lemma map_of_flat_map {A B C} (g : B -> C) (h : A -> list B) l :
  map g (flat_map h l) = flat_map (fun x => map g (h x)) l.
Proof.
  induction l as [|x l IH]; simpl; [reflexivity|].
  rewrite map_app, IH. reflexivity.
Qed.

Lemma calls_in_order {A} (g : Z -> A) (f : Z -> Z -> Z -> list A) n :
  (forall x y z, f x y z = [g (make_index n x y z)]) ->
  0 <= at3 n 0 -> 0 <= at3 n 1 -> 0 <= at3 n 2 ->
  flat_map (fun z => flat_map (fun y => flat_map (fun x => f x y z)
    (range (at3 n 0))) (range (at3 n 1))) (range (at3 n 2))
  = map g (range (cell_count n)).
Proof.
  intros Hf Hx Hy Hz. unfold cell_count.
  replace (at3 n 0 * at3 n 1 * at3 n 2) with (at3 n 2 * at3 n 1 * at3 n 0)
    by ring.
  rewrite <- make_index_counts by assumption.
  rewrite map_of_flat_map. apply flat_map_ext. intros z.
  rewrite map_of_flat_map. apply flat_map_ext. intros y.
  rewrite map_map, <- flat_map_singleton.
  apply flat_map_ext. intros x. apply Hf.
Qed.

Lemma search_calls_app {P} (t1 t2 : list (call P)) :
  search_calls (t1 ++ t2) = search_calls t1 ++ search_calls t2.
Proof. unfold search_calls. apply flat_map_app. Qed.

Lemma search_calls_flat_map {P A} (f : A -> list (call P)) l :
  search_calls (flat_map f l) = flat_map (fun x => search_calls (f x)) l.
Proof.
  induction l as [|x l IH]; simpl; [reflexivity|].
  rewrite search_calls_app, IH. reflexivity.
Qed.

Lemma search_calls_search {P} i s (t : list (call P)) :
  search_calls (search_cell_callback i s :: t) = (i, s) :: search_calls t.
Proof. reflexivity. Qed.

Lemma search_calls_normal_cell P n cells x y z :
  search_calls (normal_cell P n cells x y z)
  = [(make_index n x y z, cell_at cells (make_index n x y z))].
Proof.
  unfold normal_cell. rewrite search_calls_search. f_equal.
  rewrite search_calls_flat_map. apply flat_map_nil. intros dz.
  rewrite search_calls_flat_map. apply flat_map_nil. intros dy.
  rewrite search_calls_flat_map. apply flat_map_nil. intros dx.
  destruct (0 <? _); reflexivity.
Qed.

(** Going through a list by position gives the list. *)
Lemma cells_by_index {P} (cells : list (list P)) :
  map (cell_at cells) (range (Z.of_nat (length cells))) = cells.
Proof.
  unfold range, cell_at. rewrite Nat2Z.id, map_map.
  induction cells as [|c cells IH]; [reflexivity|].
  cbn [length seq map]. rewrite Nat2Z.id. cbn [nth]. f_equal.
  rewrite <- seq_shift, map_map.
  rewrite <- IH at 2. apply map_ext. intros k.
  rewrite !Nat2Z.id. reflexivity.
Qed.

Section SearchCalls.

Variable D : Type.
Variable zero : D.
Variable neg : D -> D.
Variable sub : D -> D -> D.
Variable eqb : D -> D -> bool.
Variable P : Type.
Variable translated : array3 D -> P -> P.

Lemma search_calls_visit n cells sci dx dy dz (w : walk D P) :
  search_calls (fst (visit D sub eqb P translated n cells sci dx dy dz w)) = [].
Proof.
  unfold visit. destruct (virtual_search_index D P w) as [[vx vy] vz].
  destruct (_ <=? _); reflexivity.
Qed.

Lemma search_calls_x_loop n len cells sci dxl dy dz (w : walk D P) :
  search_calls
    (fst (x_loop D neg sub eqb P translated n len cells sci dxl dy dz w)) = [].
Proof.
  revert w. induction dxl as [|dx rest IH]; intros w; [reflexivity|].
  rewrite x_loop_cons, search_calls_app, search_calls_visit, IH.
  reflexivity.
Qed.

Lemma search_calls_y_loop n len cells si sci dxl dyl dz (w : walk D P) :
  search_calls
    (fst (y_loop D zero neg sub eqb P translated n len cells si sci
            dxl dyl dz w)) = [].
Proof.
  revert w. induction dyl as [|dy rest IH]; intros w; [reflexivity|].
  rewrite y_loop_cons, search_calls_app, search_calls_x_loop, IH.
  reflexivity.
Qed.

Lemma search_calls_z_loop n len cells si sci dxl dyl dzl (w : walk D P) :
  search_calls
    (fst (z_loop D zero neg sub eqb P translated n len cells si sci
            dxl dyl dzl w)) = [].
Proof.
  revert w. induction dzl as [|dz rest IH]; intros w; [reflexivity|].
  rewrite z_loop_cons, search_calls_app, search_calls_y_loop, IH.
  reflexivity.
Qed.

Lemma search_calls_periodic_cell n len cells x y z :
  search_calls
    (periodic_cell D zero neg sub eqb P translated n len cells x y z)
  = [(make_index n x y z, cell_at cells (make_index n x y z))].
Proof.
  unfold periodic_cell.
  rewrite search_calls_search, search_calls_z_loop. reflexivity.
Qed.

Lemma search_calls_normal (n : array3 Z) (cells : list (list P)) :
  0 <= at3 n 0 -> 0 <= at3 n 1 -> 0 <= at3 n 2 ->
  search_calls (iterate_cells_normal P n cells)
  = map (fun i => (i, cell_at cells i)) (range (cell_count n)).
Proof.
  intros Hx Hy Hz. unfold iterate_cells_normal.
  rewrite <- (calls_in_order (fun i => (i, cell_at cells i))
                (fun x y z => search_calls (normal_cell P n cells x y z)) n)
    by (try assumption; intros; apply search_calls_normal_cell).
  rewrite search_calls_flat_map. apply flat_map_ext. intros z.
  rewrite search_calls_flat_map. apply flat_map_ext. intros y.
  rewrite search_calls_flat_map. reflexivity.
Qed.

Lemma search_calls_periodic (n : array3 Z) (len : array3 D)
    (cells : list (list P)) trace :
  iterate_cells_periodic D zero neg sub eqb P translated n len cells
  = Returns trace ->
  search_calls trace
  = map (fun i => (i, cell_at cells i)) (range (cell_count n)).
Proof.
  unfold iterate_cells_periodic.
  destruct (Z.leb_spec 2 (at3 n 2)); [|discriminate].
  destruct (Z.leb_spec 2 (at3 n 1)); [|discriminate].
  destruct (Z.leb_spec 2 (at3 n 0)); [|discriminate].
  cbn [andb]. intros Hrun. injection Hrun as <-.
  rewrite <- (calls_in_order (fun i => (i, cell_at cells i))
                (fun x y z =>
                   search_calls
                     (periodic_cell D zero neg sub eqb P translated
                        n len cells x y z)) n)
    by (try lia; intros; apply search_calls_periodic_cell).
  rewrite search_calls_flat_map. apply flat_map_ext. intros z.
  rewrite search_calls_flat_map. apply flat_map_ext. intros y.
  rewrite search_calls_flat_map. reflexivity.
Qed.

(** X3.  In both modes the search callback is called once for every
    position of the cell storage, in increasing order of the flat index
    (the value of the running counter [search_cell_index]), and it
    receives the cell as it is stored, whether the cell is empty or not
    and, in periodic mode, before any translation. *)
Theorem search_callback_gets_every_cell_in_order
    (n : array3 Z) (len : array3 D) (cells : list (list P)) :
  (0 <= at3 n 0 -> 0 <= at3 n 1 -> 0 <= at3 n 2 ->
   search_calls (iterate_cells_normal P n cells)
   = map (fun i => (i, cell_at cells i)) (range (cell_count n)))
  /\ (forall trace,
        iterate_cells_periodic D zero neg sub eqb P translated n len cells
        = Returns trace ->
        search_calls trace
        = map (fun i => (i, cell_at cells i)) (range (cell_count n))).
Proof.
  split.
  - apply search_calls_normal.
  - apply search_calls_periodic.
Qed.

End SearchCalls.

Lemma search_callback_gets_every_cell_in_order_witness :
  search_calls (iterate_cells_normal nat (2, 1, 1) [[1%nat]; [2%nat; 3%nat]])
  = [(0, [1%nat]); (1, [2%nat; 3%nat])]
  /\ exists trace,
       iterate_cells_periodic Z 0 Z.opp Z.sub Z.eqb Z (fun d p => p + at3 d 0) (2, 2, 2) (8, 8, 8)
         [[1]; [2]; []; []; []; []; []; [3]] = Returns trace
       /\ search_calls trace
          = map (fun i => (i, cell_at [[1]; [2]; []; []; []; []; []; [3]] i))
              (range 8).
Proof.
  destruct (search_callback_gets_every_cell_in_order
              Z 0 Z.opp Z.sub Z.eqb nat (fun _ p => p)
              (2, 1, 1) (0, 0, 0) [[1%nat]; [2%nat; 3%nat]]) as [Hn _].
  split; [apply Hn; simpl; lia|].
  eexists. split; [reflexivity|].
  apply (search_callback_gets_every_cell_in_order
           Z 0 Z.opp Z.sub Z.eqb Z (fun d p => p + at3 d 0)
           (2, 2, 2) (8, 8, 8) [[1]; [2]; []; []; []; []; []; [3]]).
  reflexivity.
Defined.

(** ** Enumerating a grid that the constructor returned *)

Section Constructed.

Variable pow : double -> double -> double.
Variable formation_power_ : double.
Variable cbrt_int : Z -> Z.

Local Abbreviation ctor := (Grid_ctor pow formation_power_ cbrt_int).

(** The counts of a returned grid: those of a single cell, or the ones
    that the sizing loop computed. *)
Lemma returned_counts O box ps mil dt limit incl strategy g :
  ctor O box ps mil dt limit incl strategy = Returns g ->
  (is_periodic O = false /\ number_of_cells_ g = (1, 1, 1))
  \/ exists f,
       geometry O strategy limit (max_cells_for cbrt_int O (Z.of_nat (length ps)))
         mil (snd box) = Returns (number_of_cells_ g, f)
       /\ (is_periodic O = false -> all_at_most_2 (number_of_cells_ g) = false).
Proof.
  unfold Grid_ctor.
  destruct (negb (is_periodic O) && is_largest strategy) eqn:Hfast.
  - intros [= <-]. left. split; [|reflexivity].
    destruct O; [reflexivity|discriminate].
  - destruct (geometry O strategy limit
                (max_cells_for cbrt_int O (Z.of_nat (length ps))) mil (snd box))
      as [[n f]| | | |]; cbn [bind]; try discriminate.
    destruct (negb (is_periodic O) && all_at_most_2 n) eqn:Hdilute.
    + intros [= <-]. left. split; [|reflexivity].
      destruct O; [reflexivity|discriminate].
    + cell_total_cases n.
      destruct (cell_count n <? 0); [discriminate|].
      destruct (place pow formation_power_ n (fst box) f incl dt ps _)
        as [cells| | | |]; cbn [bind]; try discriminate.
      intros [= <-]. right. exists f. split; [reflexivity|].
      cbn [number_of_cells_]. intros Hp. rewrite Hp in Hdilute.
      exact Hdilute.
Qed.

Lemma returned_periodic_counts box ps mil dt limit incl strategy g :
  ctor PeriodicBoundaries box ps mil dt limit incl strategy = Returns g ->
  forall i, (i < 3)%nat -> 2 <= at3 (number_of_cells_ g) i.
Proof.
  intros Hg i Hi. apply returned_counts in Hg.
  destruct Hg as [[Hp _]|[f [Hgeo _]]]; [discriminate|].
  pose proof (geometry_returns _ _ _ _ _ _ _ _ Hgeo i Hi) as Hax.
  eapply axis_periodic_at_least_2. exact Hax.
Qed.

(** In normal mode, for a positive interaction length and an axis that
    is not of negative length: an axis that completes has at least one
    cell, unless its count was replaced by the particle-number limit. *)
Lemma axis_normal_counts strategy limit mc mil len n f :
  flt fzero mil = true -> fle fzero len = true ->
  axis Normal strategy limit mc mil len = Returns (n, f) ->
  1 <= n \/ (limits limit = true /\ n = mc).
Proof.
  intros Hmil Hlen H. apply axis_count in H.
  destruct H as (n0 & Hcount & H).
  assert (0 <= n0) as Hn0.
  { unfold count_cells in Hcount. destruct strategy.
    - destruct (overflows mil len); [discriminate|].
      destruct (raw_cells mil len) as [k|] eqn:Hraw; [|discriminate].
      injection Hcount as <-.
      eapply raw_cells_not_negative; eassumption.
    - injection Hcount as <-. lia. }
  unfold clamp_cells in H. cbn [is_periodic negb andb] in H.
  rewrite !andb_false_r, !andb_true_r in H.
  destruct (Z.eqb_spec n0 0).
  - injection H as <-. left. lia.
  - destruct (limits limit) eqn:Hlim; cbn [andb] in H.
    + destruct (Z.ltb_spec mc n0); injection H as <-.
      * right. split; reflexivity.
      * left. lia.
    + injection H as <-. left. lia.
Qed.

(** With the particle-number limit, the count of an axis that completes
    is at most the limit (at most 1 when the limit is 0 in normal
    mode). *)
Lemma axis_limited O strategy mc mil len n f :
  axis O strategy ParticleNumber mc mil len = Returns (n, f) ->
  n <= Z.max 1 mc.
Proof.
  intros H. apply axis_count in H. destruct H as (n0 & _ & H).
  unfold clamp_cells in H. cbn [limits andb] in H.
  destruct ((n0 =? 0) && negb (is_periodic O)); [injection H as <-; lia|].
  destruct ((n0 <? 2) && is_periodic O); [discriminate|].
  destruct (Z.ltb_spec mc n0); injection H as <-; lia.
Qed.

Lemma well_formed_axis mil len i :
  well_formed_box mil len -> fle fzero (at3 len i) = true.
Proof.
  intros (_ & H0 & H1 & H2). destruct len as [[l0 l1] l2].
  destruct i as [|[|i]]; assumption.
Qed.

(** The dilute fallback leaves the bucketing loop only grids with 3 or
    more cells on some axis; a particle-number limit that replaced a
    count is then at least 3 itself. *)
Lemma returned_normal_counts box ps mil dt limit incl strategy g :
  well_formed_box mil (snd box) ->
  ctor Normal box ps mil dt limit incl strategy = Returns g ->
  forall i, (i < 3)%nat -> 1 <= at3 (number_of_cells_ g) i.
Proof.
  intros Hbox Hg. apply returned_counts in Hg.
  destruct Hg as [[_ Hone]|[f [Hgeo Hmany]]].
  - rewrite Hone. intros [|[|[|i]]] Hi; simpl; lia.
  - specialize (Hmany eq_refl).
    set (n := number_of_cells_ g) in *.
    set (mc := max_cells_for cbrt_int Normal (Z.of_nat (length ps))) in *.
    assert (forall j, (j < 3)%nat ->
              1 <= at3 n j \/ (limits limit = true /\ at3 n j = mc)) as Hax.
    { intros j Hj.
      pose proof (geometry_returns _ _ _ _ _ _ _ _ Hgeo j Hj) as Haxis.
      eapply axis_normal_counts; try eassumption.
      - apply Hbox.
      - eapply well_formed_axis. exact Hbox. }
    intros i Hi.
    destruct (Hax i Hi) as [Hpos|[Hlim Hmc]]; [exact Hpos|].
    assert (limit = ParticleNumber) as ->
      by (destruct limit; [discriminate|reflexivity]).
    assert (forall j, (j < 3)%nat -> at3 n j <= Z.max 1 mc) as Hsmall.
    { intros j Hj.
      pose proof (geometry_returns _ _ _ _ _ _ _ _ Hgeo j Hj) as Haxis.
      apply axis_limited in Haxis. exact Haxis. }
    pose proof (Hsmall 0%nat ltac:(lia)). pose proof (Hsmall 1%nat ltac:(lia)).
    pose proof (Hsmall 2%nat ltac:(lia)).
    unfold all_at_most_2 in Hmany.
    destruct (Z.leb_spec (at3 n 0) 2); [|lia].
    destruct (Z.leb_spec (at3 n 1) 2); [|lia].
    destruct (Z.leb_spec (at3 n 2) 2); [|lia].
    discriminate.
Qed.

(** What the search callback receives from the enumeration of a
    returned grid: the stored cells. *)
Lemma returned_grid_search_calls O box ps mil dt limit incl strategy g :
  (is_periodic O = false -> well_formed_box mil (snd box)) ->
  ctor O box ps mil dt limit incl strategy = Returns g ->
  exists trace,
    iterate_cells O g = Returns trace
    /\ map snd (search_calls trace) = cells_ g.
Proof.
  intros Hbox Hg. destruct O.
  - pose proof (returned_normal_counts _ _ _ _ _ _ _ _ (Hbox eq_refl) Hg) as Hn.
    pose proof (Hn 0%nat ltac:(lia)). pose proof (Hn 1%nat ltac:(lia)).
    pose proof (Hn 2%nat ltac:(lia)).
    eexists. split; [reflexivity|].
    rewrite search_calls_normal by lia.
    rewrite map_map. cbn [snd].
    rewrite <- (returned_cells_length _ _ _ _ _ _ _ _ _ _ _ _ Hg).
    apply cells_by_index.
  - pose proof (returned_periodic_counts _ _ _ _ _ _ _ _ Hg) as Hn.
    pose proof (Hn 0%nat ltac:(lia)) as H0.
    pose proof (Hn 1%nat ltac:(lia)) as H1.
    pose proof (Hn 2%nat ltac:(lia)) as H2.
    destruct (iterate_cells_periodic_returns double fzero fneg fsub feq
                ParticleData translated (number_of_cells_ g) (length_ g)
                (cells_ g) H0 H1 H2) as [trace [Hrun _]].
    exists trace. split; [exact Hrun|].
    rewrite (search_calls_periodic _ _ _ _ _ _ _ _ _ _ _ Hrun).
    rewrite map_map. cbn [snd].
    rewrite <- (returned_cells_length _ _ _ _ _ _ _ _ _ _ _ _ Hg).
    apply cells_by_index.
Qed.


(** X5.  In normal mode, for a positive interaction length and a box
    without an axis of negative length, a grid that the constructor
    returned has at least 1 cell on every axis, and the lists that its
    enumeration hands to the search callback are the stored cells, each
    once and in the order of storage. *)
Theorem normal_grid_of_a_well_formed_box box ps mil dt limit incl strategy g :
  well_formed_box mil (snd box) ->
  ctor Normal box ps mil dt limit incl strategy = Returns g ->
  (1 <= at3 (number_of_cells_ g) 0 /\ 1 <= at3 (number_of_cells_ g) 1
   /\ 1 <= at3 (number_of_cells_ g) 2)
  /\ exists trace,
       iterate_cells Normal g = Returns trace
       /\ map snd (search_calls trace) = cells_ g.
Proof.
  intros Hbox Hg. split.
  - pose proof (returned_normal_counts _ _ _ _ _ _ _ _ Hbox Hg) as Hn.
    repeat split; apply Hn; lia.
  - eapply returned_grid_search_calls; [intros _; exact Hbox|exact Hg].
Qed.


Lemma product_below_cube a b c m :
  1 <= a <= m -> 1 <= b <= m -> 1 <= c <= m -> a * b * c <= m ^ 3.
Proof.
  intros Ha Hb Hc.
  assert (a * b <= m * m) by nia.
  assert (a * b * c <= m * m * m) by nia.
  replace (m ^ 3) with (m * m * m) by ring. assumption.
Qed.

(** X7.  With CellNumberLimitation::ParticleNumber no axis of a
    returned grid has more cells than [max_cells], the truncated cube
    root that the library returned for the number N of particles (than
    2 in periodic mode, than 1 in normal mode, when the root is
    smaller).  When the cube of that root is not above N, which is what
    the comment of grid.cc:139-140 expects of it, the grid has no more
    cells than particles: at most max(8, N) in periodic mode and, for a
    well-formed box, at most max(1, N) in normal mode. *)
Theorem particle_number_limits_the_cells O box ps mil dt incl strategy g :
  ctor O box ps mil dt ParticleNumber incl strategy = Returns g ->
  let count := Z.of_nat (length ps) in
  (forall i, (i < 3)%nat ->
     at3 (number_of_cells_ g) i <= Z.max 1 (max_cells_for cbrt_int O count))
  /\ (cbrt_int count ^ 3 <= count ->
      (O = PeriodicBoundaries ->
       cell_count (number_of_cells_ g) <= Z.max 8 count)
      /\ (O = Normal -> well_formed_box mil (snd box) ->
          cell_count (number_of_cells_ g) <= Z.max 1 count)).
Proof.
  intros Hg count.
  assert (forall i, (i < 3)%nat ->
            at3 (number_of_cells_ g) i <= Z.max 1 (max_cells_for cbrt_int O count))
    as Hcap.
  { intros i Hi. pose proof Hg as Hg'. apply returned_counts in Hg'.
    destruct Hg' as [[_ Hone]|[f [Hgeo _]]].
    - rewrite Hone. destruct i as [|[|[|i]]]; simpl; lia.
    - pose proof (geometry_returns _ _ _ _ _ _ _ _ Hgeo i Hi) as Haxis.
      apply axis_limited in Haxis. exact Haxis. }
  split; [exact Hcap|]. intros Hroot. split.
  - intros ->.
    pose proof (returned_periodic_counts _ _ _ _ _ _ _ _ Hg) as Hn.
    pose proof (Hn 0%nat ltac:(lia)). pose proof (Hn 1%nat ltac:(lia)).
    pose proof (Hn 2%nat ltac:(lia)).
    pose proof (Hcap 0%nat ltac:(lia)). pose proof (Hcap 1%nat ltac:(lia)).
    pose proof (Hcap 2%nat ltac:(lia)).
    unfold max_cells_for in *. unfold cell_count.
    set (m := Z.max 1 (Z.max 2 (cbrt_int count))) in *.
    pose proof (product_below_cube
                  (at3 (number_of_cells_ g) 0) (at3 (number_of_cells_ g) 1)
                  (at3 (number_of_cells_ g) 2) m
                  ltac:(lia) ltac:(lia) ltac:(lia)) as Hprod.
    assert (m ^ 3 <= Z.max 8 count); [|lia].
    subst m. destruct (Z.le_gt_cases (cbrt_int count) 2) as [Hle|Hgt].
    + replace (Z.max 1 (Z.max 2 (cbrt_int count))) with 2 by lia.
      change (2 ^ 3) with 8. lia.
    + replace (Z.max 1 (Z.max 2 (cbrt_int count))) with (cbrt_int count)
        by lia.
      lia.
  - intros -> Hbox.
    pose proof (returned_normal_counts _ _ _ _ _ _ _ _ Hbox Hg) as Hn.
    pose proof (Hn 0%nat ltac:(lia)). pose proof (Hn 1%nat ltac:(lia)).
    pose proof (Hn 2%nat ltac:(lia)).
    pose proof (Hcap 0%nat ltac:(lia)). pose proof (Hcap 1%nat ltac:(lia)).
    pose proof (Hcap 2%nat ltac:(lia)).
    unfold max_cells_for in *. unfold cell_count.
    set (m := Z.max 1 (cbrt_int count)) in *.
    pose proof (product_below_cube
                  (at3 (number_of_cells_ g) 0) (at3 (number_of_cells_ g) 1)
                  (at3 (number_of_cells_ g) 2) m
                  ltac:(lia) ltac:(lia) ltac:(lia)) as Hprod.
    assert (m ^ 3 <= Z.max 1 count); [|lia].
    subst m. destruct (Z.le_gt_cases (cbrt_int count) 1) as [Hle|Hgt].
    + replace (Z.max 1 (cbrt_int count)) with 1 by lia.
      change (1 ^ 3) with 1. lia.
    + replace (Z.max 1 (cbrt_int count)) with (cbrt_int count) by lia.
      lia.
Qed.

End Constructed.


Lemma normal_grid_of_a_well_formed_box_witness :
  exists g,
    Sample.Grid_ctor Normal (Sample.origin, Sample.cube (of_int 10))
      Sample.face_pair (of_int 3) Sample.tenth NoLimitation false Optimal
    = Returns g
    /\ (1 <= at3 (number_of_cells_ g) 0 /\ 1 <= at3 (number_of_cells_ g) 1
        /\ 1 <= at3 (number_of_cells_ g) 2)
    /\ exists trace,
         iterate_cells Normal g = Returns trace
         /\ map snd (search_calls trace) = cells_ g.
Proof.
  eexists. split; [vm_compute; reflexivity|].
  apply (normal_grid_of_a_well_formed_box Sample.pow Sample.formation_power Sample.cbrt_int
           (Sample.origin, Sample.cube (of_int 10))
           Sample.face_pair (of_int 3) Sample.tenth NoLimitation false Optimal).
  - repeat split.
  - vm_compute. reflexivity.
Defined.


Lemma particle_number_limits_the_cells_witness :
  exists g,
    Sample.Grid_ctor PeriodicBoundaries (Sample.origin, Sample.cube (of_int 10))
      Sample.face_pair fone Sample.tenth ParticleNumber false Optimal
    = Returns g
    /\ Sample.cbrt_int 2 ^ 3 <= 2
    /\ cell_count (number_of_cells_ g) <= Z.max 8 2.
Proof.
  eexists. split; [vm_compute; reflexivity|].
  split; [vm_compute; discriminate|].
  apply (particle_number_limits_the_cells
           Sample.pow Sample.formation_power Sample.cbrt_int
           PeriodicBoundaries (Sample.origin, Sample.cube (of_int 10))
           Sample.face_pair fone Sample.tenth false Optimal);
    [vm_compute; reflexivity|vm_compute; discriminate|reflexivity].
Defined.

(** ** The bounding box ([find_min_and_length]) *)

Lemma flt_irrefl x : flt x x = false.
Proof.
  unfold flt, SFltb, SFcompare.
  destruct x as [s|s| |s m e]; try destruct s; try reflexivity;
    rewrite Z.compare_refl;
    change (Pos.compare_cont Eq m m) with (Pos.compare m m);
    rewrite Pos.compare_refl; reflexivity.
Qed.

Lemma flt_trans x y z : flt x y = true -> flt y z = true -> flt x z = true.
Proof.
  unfold flt, SFltb, SFcompare.
  destruct x as [sx|sx| |sx mx ex], y as [sy|sy| |sy my ey],
           z as [sz|sz| |sz mz ez];
    try destruct sx; try destruct sy; try destruct sz;
    try discriminate; try reflexivity;
    repeat match goal with
    | |- context [Pos.compare_cont Eq ?a ?b] =>
        change (Pos.compare_cont Eq a b) with (Pos.compare a b)
    end;
    intros H1 H2; order_cases; subst;
    try discriminate; try reflexivity; try lia.
Qed.

(** The running minimum of grid.cc:97-100 ends at or below its start, at
    a value that no later element is below, and that is the start or one
    of the elements. *)
Lemma running_min l : forall m,
  let r := fold_left fmin l m in
  (r = m \/ flt r m = true)
  /\ (forall v, In v l -> flt v r = false)
  /\ (r = m \/ In r l).
Proof.
  induction l as [|v l IH]; intros m; cbn [fold_left].
  - split; [left; reflexivity|]. split; [intros v []|left; reflexivity].
  - specialize (IH (fmin m v)). cbv zeta in IH.
    set (r := fold_left fmin l (fmin m v)) in *.
    destruct IH as (Hdown & Hlow & Hin).
    unfold fmin in Hdown, Hin.
    destruct (flt v m) eqn:Hvm.
    + split; [|split].
      * right. destruct Hdown as [->|Hr]; [exact Hvm|].
        eapply flt_trans; eassumption.
      * intros u [<-|Hu]; [|apply Hlow; exact Hu].
        destruct Hdown as [->|Hr]; [apply flt_irrefl|].
        destruct (flt v r) eqn:Hvr; [|reflexivity].
        pose proof (flt_trans _ _ _ Hvr Hr) as Hvv.
        rewrite flt_irrefl in Hvv. discriminate.
      * right. destruct Hin as [->|Hin]; [left; reflexivity|right; exact Hin].
    + split; [|split].
      * exact Hdown.
      * intros u [<-|Hu]; [|apply Hlow; exact Hu].
        destruct Hdown as [->|Hr]; [exact Hvm|].
        destruct (flt v r) eqn:Hvr; [|reflexivity].
        pose proof (flt_trans _ _ _ Hvr Hr) as Hv. congruence.
      * destruct Hin as [->|Hin]; [left; reflexivity|right; right; exact Hin].
Qed.

Lemma running_max l : forall m,
  let r := fold_left fmax l m in
  (r = m \/ flt m r = true)
  /\ (forall v, In v l -> flt r v = false)
  /\ (r = m \/ In r l).
Proof.
  induction l as [|v l IH]; intros m; cbn [fold_left].
  - split; [left; reflexivity|]. split; [intros v []|left; reflexivity].
  - specialize (IH (fmax m v)). cbv zeta in IH.
    set (r := fold_left fmax l (fmax m v)) in *.
    destruct IH as (Hup & Hhigh & Hin).
    unfold fmax in Hup, Hin.
    destruct (flt m v) eqn:Hmv.
    + split; [|split].
      * right. destruct Hup as [->|Hr]; [exact Hmv|].
        eapply flt_trans; eassumption.
      * intros u [<-|Hu]; [|apply Hhigh; exact Hu].
        destruct Hup as [->|Hr]; [apply flt_irrefl|].
        destruct (flt r v) eqn:Hrv; [|reflexivity].
        pose proof (flt_trans _ _ _ Hr Hrv) as Hvv.
        rewrite flt_irrefl in Hvv. discriminate.
      * right. destruct Hin as [->|Hin]; [left; reflexivity|right; exact Hin].
    + split; [|split].
      * exact Hup.
      * intros u [<-|Hu]; [|apply Hhigh; exact Hu].
        destruct Hup as [->|Hr]; [exact Hmv|].
        destruct (flt r v) eqn:Hrv; [|reflexivity].
        pose proof (flt_trans _ _ _ Hr Hrv) as Hv. congruence.
      * destruct Hin as [->|Hin]; [left; reflexivity|right; right; exact Hin].
Qed.

(** The loop of grid.cc:97-105 runs the three minima and the three
    maxima side by side. *)
Lemma min_max_by_axis (ps : ParticleList) : forall m0 m1 m2 M0 M1 M2,
  fold_left
    (fun (acc : array3 double * array3 double) p =>
       let '((m0, m1, m2), (M0, M1, M2)) := acc in
       ((fmin m0 (position p 1), fmin m1 (position p 2),
         fmin m2 (position p 3)),
        (fmax M0 (position p 1), fmax M1 (position p 2),
         fmax M2 (position p 3))))
    ps ((m0, m1, m2), (M0, M1, M2))
  = ((fold_left fmin (map (fun p => position p 1) ps) m0,
      fold_left fmin (map (fun p => position p 2) ps) m1,
      fold_left fmin (map (fun p => position p 3) ps) m2),
     (fold_left fmax (map (fun p => position p 1) ps) M0,
      fold_left fmax (map (fun p => position p 2) ps) M1,
      fold_left fmax (map (fun p => position p 3) ps) M2)).
Proof.
  induction ps as [|p ps IH]; intros; cbn [fold_left map]; [reflexivity|].
  apply IH.
Qed.

Lemma find_min_and_length_by_axis ps mn len :
  find_min_and_length ps = Returns (mn, len) ->
  exists first rest mx,
    ps = first :: rest
    /\ (forall k, (k < 3)%nat ->
          at3 mn k
          = fold_left fmin (map (fun p => position p (S k)) ps)
              (position first (S k))
          /\ at3 mx k
             = fold_left fmax (map (fun p => position p (S k)) ps)
                 (position first (S k))
          /\ at3 len k = fsub (at3 mx k) (at3 mn k)).
Proof.
  unfold find_min_and_length. destruct ps as [|first rest]; [discriminate|].
  rewrite min_max_by_axis. intros [= <- <-].
  exists first, rest.
  eexists (_, _, _). split; [reflexivity|].
  intros [|[|[|k]]] Hk; try lia; cbn [at3]; repeat split; reflexivity.
Qed.

(** X8.  [find_min_and_length] of a non-empty particle list returns, on
    every axis, a minimum and a length = maximum - minimum such that no
    particle lies below the minimum or above the maximum, and both are
    the coordinate of a particle of the list.  (This holds whatever the
    coordinates are; a NaN is below and above nothing.) *)
Theorem find_min_and_length_bounds ps mn len :
  find_min_and_length ps = Returns (mn, len) ->
  exists mx,
    forall k, (k < 3)%nat ->
      at3 len k = fsub (at3 mx k) (at3 mn k)
      /\ (forall p, In p ps ->
            flt (position p (S k)) (at3 mn k) = false
            /\ flt (at3 mx k) (position p (S k)) = false)
      /\ (exists p, In p ps /\ position p (S k) = at3 mn k)
      /\ (exists p, In p ps /\ position p (S k) = at3 mx k).
Proof.
  intros H. apply find_min_and_length_by_axis in H.
  destruct H as (first & rest & mx & -> & Hax).
  exists mx. intros k Hk. destruct (Hax k Hk) as (Hmn & Hmx & Hlen).
  set (xs := map (fun p => position p (S k)) (first :: rest)) in *.
  pose proof (running_min xs (position first (S k))) as (_ & Hlow & Hmin).
  pose proof (running_max xs (position first (S k))) as (_ & Hhigh & Hmax).
  rewrite <- Hmn in Hlow, Hmin. rewrite <- Hmx in Hhigh, Hmax.
  split; [exact Hlen|]. split; [|split].
  - intros p Hp.
    assert (In (position p (S k)) xs) as Hin
      by (apply in_map_iff; exists p; split; [reflexivity|exact Hp]).
    split; [apply Hlow|apply Hhigh]; exact Hin.
  - destruct Hmin as [E|Hin].
    + exists first. split; [left; reflexivity|symmetry; exact E].
    + apply in_map_iff in Hin. destruct Hin as (p & E & Hp).
      exists p. split; assumption.
  - destruct Hmax as [E|Hin].
    + exists first. split; [left; reflexivity|symmetry; exact E].
    + apply in_map_iff in Hin. destruct Hin as (p & E & Hp).
      exists p. split; assumption.
Qed.

Lemma find_min_and_length_bounds_witness :
  exists mx,
    forall k, (k < 3)%nat ->
      at3 (Sample.below_below_two, of_int 10, of_int 10) k
      = fsub (at3 mx k) (at3 Sample.origin k)
      /\ (forall p, In p Sample.corner_pair ->
            flt (position p (S k)) (at3 Sample.origin k) = false
            /\ flt (at3 mx k) (position p (S k)) = false)
      /\ (exists p, In p Sample.corner_pair
                    /\ position p (S k) = at3 Sample.origin k)
      /\ (exists p, In p Sample.corner_pair /\ position p (S k) = at3 mx k).
Proof.
  apply (find_min_and_length_bounds Sample.corner_pair Sample.origin
           (Sample.below_below_two, of_int 10, of_int 10)).
  vm_compute. reflexivity.
Defined.

(** ** The scaling factor and the particles that are kept *)

Lemma fle_not_flt a b : fle a b = true -> flt b a = false.
Proof.
  unfold fle, flt, SFleb, SFltb, SFcompare.
  destruct a as [sa|sa| |sa ma ea], b as [sb|sb| |sb mb eb];
    try destruct sa; try destruct sb;
    try discriminate; try reflexivity;
    repeat match goal with
    | |- context [Pos.compare_cont Eq ?a ?b] =>
        change (Pos.compare_cont Eq a b) with (Pos.compare a b)
    end;
    rewrite (Z.compare_antisym ea eb), (Pos.compare_antisym ma mb);
    destruct (ea ?= eb); destruct (ma ?= mb)%positive;
    try discriminate; reflexivity.
Qed.

Section Formation.

Variable pow : double -> double -> double.
Variable formation_power_ : double.
Variable cbrt_int : Z -> Z.

Local Abbreviation factor := (xsec_scaling_factor pow formation_power_).
Local Abbreviation ctor := (Grid_ctor pow formation_power_ cbrt_int).

Lemma formed_factor p dt :
  fle (formation_time_ p) (fadd (x0 p) dt) = true -> factor p dt = fone.
Proof.
  intros H. unfold xsec_scaling_factor.
  rewrite H, (fle_not_flt _ _ H).
  destruct (fle formation_power_ fzero); reflexivity.
Qed.

(** X9.  Whatever the formation power is (step function or smooth
    function, [std::pow] included), a particle whose formation time is
    not after the time of interest, its own time plus [delta_time], has
    the scaling factor exactly 1; and with the step function
    (formation power <= 0) a particle that is not yet formed then has
    its initial factor. *)
Theorem xsec_scaling_factor_of_formed_particles p dt :
  (fle (formation_time_ p) (fadd (x0 p) dt) = true -> factor p dt = fone)
  /\ (fle formation_power_ fzero = true ->
      flt (fadd (x0 p) dt) (formation_time_ p) = true ->
      factor p dt = initial_xsec_scaling_factor_ p).
Proof.
  split; [apply formed_factor|].
  intros Hstep Hlater. unfold xsec_scaling_factor.
  rewrite Hstep, Hlater. reflexivity.
Qed.

(** The stored particles are the input particles that some test keeps,
    and every test that the constructor uses keeps a particle with a
    positive scaling factor. *)
Lemma cells_are_filtered O box ps mil dt limit incl strategy g :
  ctor O box ps mil dt limit incl strategy = Returns g ->
  exists keep,
    Permutation (concat (cells_ g)) (filter keep ps)
    /\ forall p, can_interact pow formation_power_ dt p = true -> keep p = true.
Proof.
  unfold Grid_ctor.
  destruct (negb (is_periodic O) && is_largest strategy).
  - intros [= <-]. exists (fun _ => true). split; [|reflexivity].
    simpl. rewrite app_nil_r.
    induction ps as [|p l IH]; simpl; [constructor|].
    constructor. exact IH.
  - destruct (geometry O strategy limit
                (max_cells_for cbrt_int O (Z.of_nat (length ps))) mil (snd box))
      as [[n f]| | | |]; cbn [bind]; try discriminate.
    destruct (negb (is_periodic O) && all_at_most_2 n).
    + intros [= <-]. destruct incl.
      * exists (fun _ => true). split; [|reflexivity].
        simpl. rewrite app_nil_r.
        induction ps as [|p l IH]; simpl; [constructor|].
        constructor. exact IH.
      * exists (can_interact pow formation_power_ dt). split; [|auto].
        simpl. rewrite app_nil_r. apply Permutation_refl.
    + cell_total_cases n.
      destruct (cell_count n <? 0); [discriminate|].
      destruct (place pow formation_power_ n (fst box) f incl dt ps _)
        as [cells| | | |] eqn:Hplace; cbn [bind]; try discriminate.
      intros [= <-]. cbn [cells_].
      exists (fun p => negb (skipped pow formation_power_ incl dt p)).
      split.
      * apply place_permutation in Hplace.
        rewrite concat_repeat_nil in Hplace. exact Hplace.
      * intros p Hp. unfold skipped. unfold can_interact, fgt in Hp.
        destruct incl; [reflexivity|]. cbn [negb andb].
        destruct (fle (xsec_scaling_factor pow formation_power_ p dt) fzero)
          eqn:E; [|reflexivity].
        apply fle_not_flt in E. unfold flt in E. congruence.
Qed.

(** X10.  A returned grid stores input particles only, and it stores
    every input particle whose formation time is not after the end of
    the time step, whatever the mode, the strategy, the limit and the
    flag include_unformed_particles are. *)
Theorem grid_keeps_the_formed_particles O box ps mil dt limit incl strategy g :
  ctor O box ps mil dt limit incl strategy = Returns g ->
  (forall q, In q (concat (cells_ g)) -> In q ps)
  /\ (forall p, In p ps ->
        fle (formation_time_ p) (fadd (x0 p) dt) = true ->
        In p (concat (cells_ g))).
Proof.
  intros Hg. apply cells_are_filtered in Hg.
  destruct Hg as (keep & Hperm & Hkeep). split.
  - intros q Hq. apply (Permutation_in _ Hperm) in Hq.
    apply filter_In in Hq. tauto.
  - intros p Hp Hformed.
    apply (Permutation_in _ (Permutation_sym Hperm)).
    apply filter_In. split; [exact Hp|]. apply Hkeep.
    unfold can_interact. rewrite (formed_factor _ _ Hformed). reflexivity.
Qed.

End Formation.

Lemma xsec_scaling_factor_of_formed_particles_witness :
  xsec_scaling_factor Sample.pow Sample.formation_power
    (Sample.formed 0 fzero fzero fzero) Sample.tenth = fone
  /\ xsec_scaling_factor Sample.pow Sample.formation_power
       (Sample.unformed 1 fone fone fone) Sample.tenth = fzero.
Proof.
  split.
  - destruct (xsec_scaling_factor_of_formed_particles
                Sample.pow Sample.formation_power
                (Sample.formed 0 fzero fzero fzero) Sample.tenth) as [H _].
    apply H. vm_compute. reflexivity.
  - destruct (xsec_scaling_factor_of_formed_particles
                Sample.pow Sample.formation_power
                (Sample.unformed 1 fone fone fone) Sample.tenth) as [_ H].
    apply H; vm_compute; reflexivity.
Defined.

Lemma grid_keeps_the_formed_particles_witness :
  exists g,
    Sample.Grid_ctor Normal (Sample.origin, Sample.cube (of_int 10))
      Sample.mixed_pair (of_int 3) Sample.tenth NoLimitation false Optimal
    = Returns g
    /\ In (Sample.formed 0 fzero fzero fzero) (concat (cells_ g)).
Proof.
  eexists. split; [vm_compute; reflexivity|].
  apply (grid_keeps_the_formed_particles Sample.pow Sample.formation_power Sample.cbrt_int
           Normal (Sample.origin, Sample.cube (of_int 10))
           Sample.mixed_pair (of_int 3) Sample.tenth NoLimitation false
           Optimal).
  - vm_compute. reflexivity.
  - left. reflexivity.
  - vm_compute. reflexivity.
Defined.

(** ** The number of neighbour calls *)














(** ** The arguments of the calls *)

Lemma in_neighbor_calls {P} (trace : list (call P)) i j s nb :
  In (i, j, s, nb) (neighbor_calls trace)
  <-> In (neighbor_cell_callback i j s nb) trace.
Proof.
  unfold neighbor_calls. rewrite in_flat_map. split.
  - intros (c & Hc & Hin). destruct c as [i' s'|i' j' s' nb'];
      [destruct Hin|].
    destruct Hin as [E|[]]. injection E as -> -> -> ->. exact Hc.
  - intros H. exists (neighbor_cell_callback i j s nb).
    split; [exact H|left; reflexivity].
Qed.

(** X12.  In normal mode every call of the neighbour callback hands
    over two stored cells, unchanged, the one with the smaller flat
    index first. *)
Theorem normal_neighbour_calls_get_stored_cells P (n : array3 Z)
    (cells : list (list P)) i j s nb :
  In (i, j, s, nb) (neighbor_calls (iterate_cells_normal P n cells)) ->
  s = cell_at cells i /\ nb = cell_at cells j /\ i < j.
Proof.
  rewrite in_neighbor_calls. unfold iterate_cells_normal.
  rewrite in_flat_map. intros (z & _ & H).
  apply in_flat_map in H. destruct H as (y & _ & H).
  apply in_flat_map in H. destruct H as (x & _ & H).
  unfold normal_cell in H. destruct H as [H|H]; [discriminate|].
  apply in_flat_map in H. destruct H as (dz & _ & H).
  apply in_flat_map in H. destruct H as (dy & _ & H).
  apply in_flat_map in H. destruct H as (dx & _ & H).
  destruct (Z.ltb_spec 0 (make_index n dx dy dz)); [|destruct H].
  destruct H as [H|[]]. injection H as <- <- <- <-.
  repeat split. lia.
Qed.

Lemma normal_neighbour_calls_get_stored_cells_witness :
  [1%nat] = cell_at [[1%nat]; [2%nat; 3%nat]] 0
  /\ [2%nat; 3%nat] = cell_at [[1%nat]; [2%nat; 3%nat]] 1 /\ 0 < 1.
Proof.
  apply (normal_neighbour_calls_get_stored_cells nat (2, 1, 1)
           [[1%nat]; [2%nat; 3%nat]] 0 1 [1%nat] [2%nat; 3%nat]).
  vm_compute. left. reflexivity.
Defined.

Section Arguments.

Variable D : Type.
Variable zero : D.
Variable neg : D -> D.
Variable sub : D -> D -> D.
Variable eqb : D -> D -> bool.
Variable P : Type.
Variable translated : array3 D -> P -> P.
Variable n : array3 Z.
Variable len : array3 D.
Variable cells : list (list P).
Variable sci : Z.

(** The buffer of the walk is the stored search cell after
    translations; a call of the walk of cell [sci] hands over stored
    cells. *)
Local Abbreviation derived w :=
  (exists ds,
     search_buffer D P w = retranslated translated ds (cell_at cells sci)).

Local Abbreviation from_here :=
  (fun c : call P =>
     hands_over_stored_cells translated cells c
     /\ match c with
        | search_cell_callback i _ => i = sci
        | neighbor_cell_callback i _ _ _ => i = sci
        end).

Lemma derived_retranslate (w : walk D P) :
  derived w -> derived (retranslate D sub eqb P translated w).
Proof.
  intros [ds Hds]. unfold retranslate.
  destruct (vneq D eqb (wrap_vector D P w) (current_wrap_vector D P w)).
  - exists (ds ++ [vsub D sub (wrap_vector D P w) (current_wrap_vector D P w)]).
    cbn [search_buffer]. unfold retranslated.
    rewrite fold_left_app. cbn [fold_left]. rewrite Hds. reflexivity.
  - exists ds. exact Hds.
Qed.

Lemma derived_enter i d (w : walk D P) :
  derived w -> derived (enter D neg P i n len d w).
Proof. unfold enter. destruct (wrap d); auto. Qed.

Lemma derived_enter_z d (w : walk D P) :
  derived w -> derived (enter_z D neg P len d w).
Proof. unfold enter_z. destruct (wrap d); auto. Qed.

Lemma derived_leave i si (w : walk D P) :
  derived w -> derived (leave D zero P i si w).
Proof. auto. Qed.

Lemma visit_arguments dx dy dz (w : walk D P) :
  derived w ->
  Forall from_here
    (fst (visit D sub eqb P translated n cells sci dx dy dz w))
  /\ derived (snd (visit D sub eqb P translated n cells sci dx dy dz w)).
Proof.
  intros Hw. unfold visit.
  destruct (virtual_search_index D P w) as [[vx vy] vz].
  destruct (_ <=? _); cbn [fst snd].
  - split; [constructor|exact Hw].
  - pose proof (derived_retranslate w Hw) as Hr.
    split; [|exact Hr].
    constructor; [|constructor].
    split; [|reflexivity]. split; [reflexivity|exact Hr].
Qed.

Lemma x_loop_arguments dxl dy dz : forall (w : walk D P),
  derived w ->
  Forall from_here
    (fst (x_loop D neg sub eqb P translated n len cells sci dxl dy dz w))
  /\ derived
       (snd (x_loop D neg sub eqb P translated n len cells sci dxl dy dz w)).
Proof.
  induction dxl as [|dx rest IH]; intros w Hw; cbn [x_loop].
  - split; [constructor|exact Hw].
  - destruct (visit_arguments dx dy dz _ (derived_enter 0 dx w Hw))
      as [Hc1 Hw1].
    destruct (visit D sub eqb P translated n cells sci dx dy dz _)
      as [c1 w1]. cbn [fst snd] in Hc1, Hw1.
    destruct (IH w1 Hw1) as [Hc2 Hw2].
    destruct (x_loop D neg sub eqb P translated n len cells sci rest dy dz w1)
      as [c2 w2]. cbn [fst snd] in *.
    split; [apply Forall_app; split; assumption|exact Hw2].
Qed.

Lemma y_loop_arguments si dxl dyl dz : forall (w : walk D P),
  derived w ->
  Forall from_here
    (fst (y_loop D zero neg sub eqb P translated n len cells si sci
            dxl dyl dz w))
  /\ derived
       (snd (y_loop D zero neg sub eqb P translated n len cells si sci
               dxl dyl dz w)).
Proof.
  induction dyl as [|dy rest IH]; intros w Hw; cbn [y_loop].
  - split; [constructor|exact Hw].
  - destruct (x_loop_arguments dxl dy dz _ (derived_enter 1 dy w Hw))
      as [Hc1 Hw1].
    destruct (x_loop D neg sub eqb P translated n len cells sci dxl dy dz _)
      as [c1 w1]. cbn [fst snd] in Hc1, Hw1.
    destruct (IH _ (derived_leave 0 si w1 Hw1)) as [Hc2 Hw2].
    destruct (y_loop D zero neg sub eqb P translated n len cells si sci
                dxl rest dz _) as [c2 w2]. cbn [fst snd] in *.
    split; [apply Forall_app; split; assumption|exact Hw2].
Qed.

Lemma z_loop_arguments si dxl dyl dzl : forall (w : walk D P),
  derived w ->
  Forall from_here
    (fst (z_loop D zero neg sub eqb P translated n len cells si sci
            dxl dyl dzl w)).
Proof.
  induction dzl as [|dz rest IH]; intros w Hw; cbn [z_loop].
  - constructor.
  - destruct (y_loop_arguments si dxl dyl dz _ (derived_enter_z dz w Hw))
      as [Hc1 Hw1].
    destruct (y_loop D zero neg sub eqb P translated n len cells si sci
                dxl dyl dz _) as [c1 w1]. cbn [fst snd] in Hc1, Hw1.
    pose proof (IH _ (derived_leave 1 si w1 Hw1)) as Hc2.
    destruct (z_loop D zero neg sub eqb P translated n len cells si sci
                dxl dyl rest _) as [c2 w2]. cbn [fst snd] in *.
    apply Forall_app; split; assumption.
Qed.

End Arguments.

(** X13.  In periodic mode every call of the neighbour callback hands
    over, as second argument, the neighbour cell exactly as it is
    stored, and as first argument the stored search cell after
    translations: only the copy of the search cell is ever moved, and
    the stored cells are what the next call starts from again. *)
Theorem periodic_neighbour_calls_get_stored_cells
    D zero neg sub eqb P translated (n : array3 Z) (len : array3 D)
    (cells : list (list P)) trace i j s nb :
  iterate_cells_periodic D zero neg sub eqb P translated n len cells
  = Returns trace ->
  In (i, j, s, nb) (neighbor_calls trace) ->
  nb = cell_at cells j
  /\ exists ds, s = retranslated translated ds (cell_at cells i).
Proof.
  unfold iterate_cells_periodic.
  destruct ((2 <=? at3 n 2) && (2 <=? at3 n 1) && (2 <=? at3 n 0));
    [|discriminate].
  intros [= <-]. rewrite in_neighbor_calls.
  rewrite in_flat_map. intros (z & _ & H).
  apply in_flat_map in H. destruct H as (y & _ & H).
  apply in_flat_map in H. destruct H as (x & _ & H).
  unfold periodic_cell in H. destruct H as [H|H]; [discriminate|].
  pose proof (z_loop_arguments D zero neg sub eqb P translated n len cells
                (make_index n x y z) (x, y, z)
                (d_list_periodic (at3 n 0) x) (d_list_periodic (at3 n 1) y)
                (dz_list_periodic (at3 n 2) z)
                {| virtual_search_index := (x, y, z);
                   wrap_vector := (zero, zero, zero);
                   current_wrap_vector := (zero, zero, zero);
                   search_buffer := cell_at cells (make_index n x y z) |}
                (ex_intro _ [] eq_refl)) as Hall.
  rewrite Forall_forall in Hall. specialize (Hall _ H).
  destruct Hall as [[Hnb Hs] ->]. split; assumption.
Qed.

Lemma periodic_neighbour_calls_get_stored_cells_witness :
  [1] = cell_at [[1]; [12; 13]; []; []; []; []; []; []] 0
  /\ exists ds,
       [4; 5] = retranslated (fun d p => p + at3 d 0) ds
                  (cell_at [[1]; [12; 13]; []; []; []; []; []; []] 1).
Proof.
  apply (periodic_neighbour_calls_get_stored_cells
           Z 0 Z.opp Z.sub Z.eqb Z (fun d p => p + at3 d 0)
           (2, 2, 2) (8, 8, 8) [[1]; [12; 13]; []; []; []; []; []; []]
           _ 1 0 [4; 5] [1] eq_refl).
  vm_compute. tauto.
Defined.

(** ** The [nextafter] loop of the sizing loop *)

Lemma unordered_is_nan a b :
  fle b a = false -> flt a b = false -> is_nan a = true \/ is_nan b = true.
Proof.
  unfold fle, flt, SFleb, SFltb, SFcompare.
  destruct a as [sa|sa| |sa ma ea], b as [sb|sb| |sb mb eb];
    try destruct sa; try destruct sb;
    try discriminate; try (left; reflexivity); try (right; reflexivity);
    repeat match goal with
    | |- context [Pos.compare_cont Eq ?a ?b] =>
        change (Pos.compare_cont Eq a b) with (Pos.compare a b)
    end;
    rewrite (Z.compare_antisym ea eb), (Pos.compare_antisym ma mb);
    destruct (ea ?= eb); destruct (ma ?= mb)%positive;
    discriminate.
Qed.

Lemma of_int_not_nan n : is_nan (of_int n) = false.
Proof.
  unfold of_int. destruct n as [|p|p]; [reflexivity| |];
    destruct (shl_align _ _ _); reflexivity.
Qed.

(** X14.  For a count of at least 1 the rescaling of grid.cc:196-204
    always comes to an end: the [nextafter] loop is left after finitely
    many steps.  On an axis at least one interaction length long it
    ends with index_factor * length < count, the safety margin, unless
    that product is a NaN, in which case the assertion of grid.cc:203
    fails; on a shorter axis the index factor stays 1 / interaction
    length. *)
Theorem nextafter_loop_ends mil len n :
  0 < n ->
  (exists f,
     rescale mil len n = Returns f
     /\ (fge len mil = true -> flt (fmul f len) (of_int n) = true)
     /\ (fge len mil = false -> f = fdiv fone mil))
  \/ (rescale mil len n = AssertFails
      /\ fge len mil = true
      /\ exists f, is_nan (fmul f len) = true).
Proof.
  intros Hn. unfold rescale. destruct (fge len mil) eqn:Hlong.
  - destruct (nudge len (of_int n) (fdiv (of_int n) len)) as [f|] eqn:E.
    + destruct (flt (fmul f len) (of_int n)) eqn:Hlt.
      * left. exists f. split; [reflexivity|]. split; [auto|discriminate].
      * right. split; [reflexivity|]. split; [reflexivity|]. exists f.
        apply nudge_exit in E. unfold fge in E.
        destruct (unordered_is_nan _ _ E Hlt) as [H|H]; [exact H|].
        rewrite of_int_not_nan in H. discriminate.
    + exfalso. exact (nudge_terminates _ _ _ Hn E).
  - left. eexists. split; [reflexivity|]. split; [discriminate|reflexivity].
Qed.

Lemma nextafter_loop_ends_witness :
  (exists f,
     rescale fone (of_int 10) 10 = Returns f
     /\ (fge (of_int 10) fone = true
         -> flt (fmul f (of_int 10)) (of_int 10) = true)
     /\ (fge (of_int 10) fone = false -> f = fdiv fone fone))
  \/ (rescale fone (of_int 10) 10 = AssertFails
      /\ fge (of_int 10) fone = true
      /\ exists f, is_nan (fmul f (of_int 10)) = true).
Proof.
  apply (nextafter_loop_ends fone (of_int 10) 10). lia.
Defined.

(** The loop has nowhere to go from a value at rest. *)
Lemma nudge_at_rest len n f :
  at_rest f = true -> fge (fmul f len) n = true -> nudge len n f = None.
Proof.
  intros Hrest Hge. funelim (nudge len n f); try reflexivity; congruence.
Qed.

Section EmptyList.

Variable pow : double -> double -> double.
Variable formation_power_ : double.
Variable cbrt_int : Z -> Z.

(** X15.  With no particles at all, in normal mode with the Optimal
    strategy and CellNumberLimitation::ParticleNumber, the limit is
    cbrt(0) = 0 cells (the cube root of zero is zero in every C
    library): a first axis of positive finite length that is at
    least one interaction length long gets the count 0 and the index
    factor 0 / length = 0, the condition 0 * length >= 0 of the
    [nextafter] loop holds, and [nextafter] has nowhere to go from 0:
    the constructor never leaves the loop. *)
Theorem empty_particle_list_never_returns box mil dt incl k m e :
  cbrt_int 0 = 0 ->
  at3 (snd box) 0 = S754_finite false m e ->
  fge (at3 (snd box) 0) mil = true ->
  overflows mil (at3 (snd box) 0) = false ->
  raw_cells mil (at3 (snd box) 0) = Some k ->
  1 <= k ->
  Grid_ctor pow formation_power_ cbrt_int Normal box [] mil dt ParticleNumber incl
    Optimal = Loops.
Proof.
  destruct box as [minp [[l0 l1] l2]]. cbn [snd at3].
  intros Hroot Hlen Hlong Hover Hraw Hk. unfold Grid_ctor.
  cbn [is_periodic is_largest negb andb length snd]. cbv zeta.
  replace (max_cells_for cbrt_int Normal (Z.of_nat 0)) with 0
    by (symmetry; exact Hroot).
  unfold geometry. unfold axis at 1. unfold count_cells. cbn [at3].
  rewrite Hover, Hraw.
  cbn [of_option bind]. unfold clamp_cells.
  cbn [is_periodic negb limits andb].
  destruct (Z.eqb_spec k 0); [lia|]. rewrite andb_false_r.
  destruct (Z.ltb_spec 0 k); [|lia]. cbn [andb bind].
  unfold rescale. rewrite Hlong.
  rewrite nudge_at_rest; [reflexivity| |]; rewrite Hlen; reflexivity.
Qed.

End EmptyList.

Lemma empty_particle_list_never_returns_witness :
  Sample.Grid_ctor Normal (Sample.origin, Sample.cube (of_int 10)) [] fone
    Sample.tenth ParticleNumber false Optimal = Loops.
Proof.
  apply (empty_particle_list_never_returns Sample.pow Sample.formation_power Sample.cbrt_int
           (Sample.origin, Sample.cube (of_int 10)) fone Sample.tenth false
           10 5629499534213120 (-49));
    try (vm_compute; reflexivity).
  lia.
Defined.

(** ** The cell of a particle *)

Lemma nth_push_back_at (cells : list ParticleList) p : forall k i,
  (k < length cells)%nat ->
  nth i (push_back_at cells k p) []
  = if Nat.eqb i k then nth i cells [] ++ [p] else nth i cells [].
Proof.
  induction cells as [|c cells IH]; intros k i Hk; [simpl in Hk; lia|].
  destruct k as [|k], i as [|i]; cbn [push_back_at nth Nat.eqb];
    try reflexivity.
  apply IH. simpl in Hk. lia.
Qed.

Section Sorting.

Variable pow : double -> double -> double.
Variable formation_power_ : double.
Variable cbrt_int : Z -> Z.

(** After the bucketing loop a cell holds what it held before, followed
    by the particles of the list that are kept and whose index is the
    index of the cell, in the order of the list. *)
Lemma place_sorts n minp f incl dt ps : forall cells cells',
  place pow formation_power_ n minp f incl dt ps cells = Returns cells' ->
  forall i, 0 <= i < Z.of_nat (length cells) ->
    cell_at cells' i
    = cell_at cells i
      ++ filter (fun p => kept pow formation_power_ incl dt p
                          && lands_in n minp f i p) ps.
Proof.
  induction ps as [|p ps IH]; intros cells cells'; cbn [place filter].
  - intros [= <-] i Hi. rewrite app_nil_r. reflexivity.
  - unfold kept at 1.
    destruct (skipped pow formation_power_ incl dt p) eqn:Hskip;
      cbn [negb andb].
    + apply IH.
    + unfold lands_in at 1.
      destruct (cell_index_for n minp f p) as [idx| | | |]; cbn [bind];
        try discriminate.
      destruct (Z.leb_spec (Z.of_nat (length cells)) idx); [discriminate|].
      destruct (Z.ltb_spec idx 0); [discriminate|].
      intros Hrest i Hi.
      rewrite (IH _ _ Hrest i) by (rewrite push_back_at_length; exact Hi).
      unfold cell_at at 1. rewrite nth_push_back_at by lia.
      destruct (Z.eqb_spec idx i) as [->|Hne].
      * rewrite Nat.eqb_refl. rewrite <- app_assoc. reflexivity.
      * destruct (Nat.eqb_spec (Z.to_nat i) (Z.to_nat idx)) as [E|E];
          [exfalso; lia|reflexivity].
Qed.

(** X16.  The bucketing loop sorts the particles by their cell index and
    keeps their order: in a returned grid that is not a single cell,
    the cell at flat index i holds exactly the particles of the input
    list that are not skipped and for which [cell_index_for] is i, in
    the order of the input list; a single cell holds the particles that
    pass its test, in the order of the input list. *)
Theorem cells_hold_the_particles_of_their_index
    O box ps mil dt limit incl strategy g :
  Grid_ctor pow formation_power_ cbrt_int O box ps mil dt limit incl strategy
  = Returns g ->
  (is_periodic O = false /\ number_of_cells_ g = (1, 1, 1)
   /\ exists keep, cells_ g = [filter keep ps])
  \/ exists f,
       geometry O strategy limit (max_cells_for cbrt_int O (Z.of_nat (length ps)))
         mil (snd box) = Returns (number_of_cells_ g, f)
       /\ forall i, 0 <= i < cell_count (number_of_cells_ g) ->
            cell_at (cells_ g) i
            = filter (fun p => kept pow formation_power_ incl dt p
                               && lands_in (number_of_cells_ g) (fst box) f i p)
                ps.
Proof.
  assert (forall l : ParticleList, l = filter (fun _ => true) l) as Hall.
  { induction l as [|p l IH]; simpl; congruence. }
  unfold Grid_ctor.
  destruct (negb (is_periodic O) && is_largest strategy) eqn:Hfast.
  - intros [= <-]. left. split; [destruct O; [reflexivity|discriminate]|].
    split; [reflexivity|]. exists (fun _ => true). cbn [cells_ single_cell].
    f_equal. apply Hall.
  - destruct (geometry O strategy limit
                (max_cells_for cbrt_int O (Z.of_nat (length ps))) mil (snd box))
      as [[n f]| | | |]; cbn [bind]; try discriminate.
    destruct (negb (is_periodic O) && all_at_most_2 n) eqn:Hdilute.
    + intros [= <-]. left. split; [destruct O; [reflexivity|discriminate]|].
      split; [reflexivity|]. cbn [cells_ single_cell]. destruct incl.
      * exists (fun _ => true). f_equal. apply Hall.
      * eexists. reflexivity.
    + cell_total_cases n.
      destruct (Z.ltb_spec (cell_count n) 0); [discriminate|].
      destruct (place pow formation_power_ n (fst box) f incl dt ps _)
        as [cells| | | |] eqn:Hplace; cbn [bind]; try discriminate.
      intros [= <-]. right. exists f. split; [reflexivity|].
      cbn [cells_ number_of_cells_]. intros i Hi.
      rewrite (place_sorts _ _ _ _ _ _ _ _ Hplace i)
        by (rewrite repeat_length; lia).
      unfold cell_at at 1.
      replace (nth (Z.to_nat i) (repeat [] _) []) with (@nil ParticleData);
        [reflexivity|].
      symmetry. apply nth_repeat.
Qed.

End Sorting.

Lemma cells_hold_the_particles_of_their_index_witness :
  exists g,
    Sample.Grid_ctor PeriodicBoundaries (Sample.origin, Sample.cube (of_int 10))
      Sample.face_pair fone Sample.tenth NoLimitation false Largest = Returns g
    /\ ((is_periodic PeriodicBoundaries = false
         /\ number_of_cells_ g = (1, 1, 1)
         /\ exists keep, cells_ g = [filter keep Sample.face_pair])
        \/ exists f,
             geometry PeriodicBoundaries Largest NoLimitation
               (max_cells_for Sample.cbrt_int PeriodicBoundaries 2) fone
               (Sample.cube (of_int 10)) = Returns (number_of_cells_ g, f)
             /\ forall i, 0 <= i < cell_count (number_of_cells_ g) ->
                  cell_at (cells_ g) i
                  = filter (fun p =>
                              kept Sample.pow Sample.formation_power false
                                Sample.tenth p
                              && lands_in (number_of_cells_ g) Sample.origin
                                   f i p)
                      Sample.face_pair).
Proof.
  eexists. split; [vm_compute; reflexivity|].
  apply (cells_hold_the_particles_of_their_index
           Sample.pow Sample.formation_power Sample.cbrt_int PeriodicBoundaries
           (Sample.origin, Sample.cube (of_int 10)) Sample.face_pair fone
           Sample.tenth NoLimitation false Largest).
  vm_compute. reflexivity.
Defined.

(** ** The dilute limit *)

Section Dilute.

Variable pow : double -> double -> double.
Variable formation_power_ : double.
Variable cbrt_int : Z -> Z.

(** X17.  A grid that the normal-mode constructor returned is never a
    grid of at most 2 x 2 x 2 cells with more than one cell: either it
    is the single cell, whose enumeration is one call of the search
    callback with all stored particles and no call of the neighbour
    callback, or some axis has at least 3 cells. *)
Theorem normal_grid_is_one_cell_or_large
    box ps mil dt limit incl strategy g :
  Grid_ctor pow formation_power_ cbrt_int Normal box ps mil dt limit incl strategy
  = Returns g ->
  (number_of_cells_ g = (1, 1, 1)
   /\ exists content,
        cells_ g = [content]
        /\ iterate_cells Normal g = Returns [search_cell_callback 0 content])
  \/ (exists i, (i < 3)%nat /\ 3 <= at3 (number_of_cells_ g) i).
Proof.
  intros Hg.
  pose proof (returned_cells_length _ _ _ _ _ _ _ _ _ _ _ _ Hg) as Hlen.
  apply returned_counts in Hg. destruct Hg as [[_ Hone]|[f [_ Hmany]]].
  - left. split; [exact Hone|].
    rewrite Hone in Hlen. unfold cell_count in Hlen. cbn [at3] in Hlen.
    destruct (cells_ g) as [|content [|c rest]] eqn:Hcells;
      cbn [length] in Hlen; try lia.
    exists content. split; [reflexivity|].
    unfold iterate_cells. rewrite Hone, Hcells. reflexivity.
  - right. specialize (Hmany eq_refl). unfold all_at_most_2 in Hmany.
    destruct (Z.leb_spec (at3 (number_of_cells_ g) 0) 2);
      [|exists 0%nat; split; lia].
    destruct (Z.leb_spec (at3 (number_of_cells_ g) 1) 2);
      [|exists 1%nat; split; lia].
    destruct (Z.leb_spec (at3 (number_of_cells_ g) 2) 2);
      [discriminate|exists 2%nat; split; lia].
Qed.

End Dilute.

Lemma normal_grid_is_one_cell_or_large_witness :
  exists g,
    Sample.Grid_ctor Normal (Sample.origin, Sample.cube (of_int 10))
      Sample.mixed_pair (of_int 5) Sample.tenth NoLimitation false Optimal
    = Returns g
    /\ ((number_of_cells_ g = (1, 1, 1)
         /\ exists content,
              cells_ g = [content]
              /\ iterate_cells Normal g
                 = Returns [search_cell_callback 0 content])
        \/ (exists i, (i < 3)%nat /\ 3 <= at3 (number_of_cells_ g) i)).
Proof.
  eexists. split; [vm_compute; reflexivity|].
  apply (normal_grid_is_one_cell_or_large Sample.pow Sample.formation_power Sample.cbrt_int
           (Sample.origin, Sample.cube (of_int 10)) Sample.mixed_pair
           (of_int 5) Sample.tenth NoLimitation false Optimal).
  vm_compute. reflexivity.
Defined.

(** ** The enumeration stays inside the cell storage *)


Section Inside.

Variable pow : double -> double -> double.
Variable formation_power_ : double.
Variable cbrt_int : Z -> Z.


End Inside.


(** ** Particles that are not on the grid *)

Lemma in_cell_at {P} (cells : list (list P)) i q :
  In q (cell_at cells i) -> In q (concat cells).
Proof.
  unfold cell_at. intros H.
  destruct (Nat.lt_ge_cases (Z.to_nat i) (length cells)) as [Hlt|Hge].
  - apply in_concat. exists (nth (Z.to_nat i) cells []).
    split; [apply nth_In; exact Hlt|exact H].
  - rewrite nth_overflow in H by exact Hge. destruct H.
Qed.

(** In normal mode the callbacks receive stored particles only. *)
Lemma normal_arguments_are_stored P (n : array3 Z) (cells : list (list P)) c q :
  In c (iterate_cells_normal P n cells) ->
  In q (arguments c) -> In q (concat cells).
Proof.
  unfold iterate_cells_normal.
  rewrite in_flat_map. intros (z & _ & H).
  apply in_flat_map in H. destruct H as (y & _ & H).
  apply in_flat_map in H. destruct H as (x & _ & H).
  unfold normal_cell in H. destruct H as [<-|H].
  - cbn [arguments]. apply in_cell_at.
  - apply in_flat_map in H. destruct H as (dz & _ & H).
    apply in_flat_map in H. destruct H as (dy & _ & H).
    apply in_flat_map in H. destruct H as (dx & _ & H).
    destruct (0 <? make_index n dx dy dz); [|destruct H].
    destruct H as [<-|[]]. cbn [arguments]. intros Hq.
    apply in_app_or in Hq. destruct Hq as [Hq|Hq]; eapply in_cell_at; exact Hq.
Qed.

Section NotOnTheGrid.

Variable pow : double -> double -> double.
Variable formation_power_ : double.
Variable cbrt_int : Z -> Z.

(** X19.  With include_unformed_particles = false and scaling factors
    that are numbers, on every path of the constructor but the
    single-cell fast path of normal mode with the Largest strategy, a
    particle whose scaling factor is exactly 0.0 for the time step is in
    no cell of the returned grid; and in normal mode it is in no
    argument of a call of the search callback or of the neighbour
    callback. *)
Theorem zero_factor_particle_is_not_on_the_grid
    O box ps mil dt limit strategy g p :
  negb (is_periodic O) && is_largest strategy = false ->
  forallb (fun p => negb (is_nan (xsec_scaling_factor pow formation_power_ p dt)))
    ps = true ->
  Grid_ctor pow formation_power_ cbrt_int O box ps mil dt limit false strategy
  = Returns g ->
  xsec_scaling_factor pow formation_power_ p dt = fzero ->
  ~ In p (concat (cells_ g))
  /\ (O = Normal ->
      forall trace c, iterate_cells Normal g = Returns trace ->
        In c trace -> ~ In p (arguments c)).
Proof.
  intros Hpath Hnum Hg Hzero.
  pose proof (zero_factor_particle_in_no_cell _ _ _ _ _ _ _ _ _ _ _ _
                Hpath Hnum Hg Hzero) as Hout.
  split; [exact Hout|].
  intros _ trace c Hrun Hc Hp. apply Hout.
  unfold iterate_cells in Hrun. injection Hrun as <-.
  eapply normal_arguments_are_stored; eassumption.
Qed.

End NotOnTheGrid.

Lemma zero_factor_particle_is_not_on_the_grid_witness :
  exists g,
    Sample.Grid_ctor Normal (Sample.origin, Sample.cube (of_int 10))
      Sample.mixed_pair (of_int 3) Sample.tenth NoLimitation false Optimal
    = Returns g
    /\ ~ In (Sample.unformed 1 fone fone fone) (concat (cells_ g))
    /\ (Normal = Normal ->
        forall trace c, iterate_cells Normal g = Returns trace ->
          In c trace -> ~ In (Sample.unformed 1 fone fone fone) (arguments c)).
Proof.
  eexists. split; [vm_compute; reflexivity|].
  apply (zero_factor_particle_is_not_on_the_grid
           Sample.pow Sample.formation_power Sample.cbrt_int Normal
           (Sample.origin, Sample.cube (of_int 10)) Sample.mixed_pair
           (of_int 3) Sample.tenth NoLimitation Optimal);
    vm_compute; reflexivity.
Defined.
